(** * CodeShield backend: ingestion, chunking, aggregation and persistence

    A shallow embedding of [app/utils/pipeline_utils.py],
    [app/controllers/pipeline.py] and [app/utils/mongo_utils.py], and the
    properties of the repository pipeline proved about it.

    Conventions of the embedding.
    - A Python [str] is a [string]: a sequence of characters, each a code
      point below 256 (Basic Latin and Latin-1).  [len] counts characters.
    - A Python [int] is a [Z].
    - A [dict] with fixed keys built by a literal or a pydantic model is a
      record; a MongoDB document is a finite map from field names to values.
    - [print] calls are not modelled. *)

From Stdlib Require Import ZArith Ascii String DecimalString.
From stdpp Require Import gmap strings list fin_maps.

Set Warnings "-abstract-large-number".

Local Open Scope string_scope.
Local Open Scope list_scope.
Local Open Scope Z_scope.

(* ===================================================================== *)
(** * Python strings *)
(* ===================================================================== *)

Module PyStr.

(** ['\n'] *)
Definition newline : ascii := ascii_of_nat 10.
Definition NL : string := String newline "".

(** The double quote as a string. *)
Definition QUOTE : string := String (ascii_of_nat 34) "".

(** [len(s)] *)
Definition len (s : string) : Z := Z.of_nat (String.length s).

(** [s.split('\n')]: the pieces between the separators; always at least
    one piece. *)
Fixpoint split (sep : ascii) (s : string) : list string :=
  match s with
  | EmptyString => [""]
  | String c s' =>
      if decide (c = sep) then "" :: split sep s'
      else match split sep s' with
           | piece :: pieces => String c piece :: pieces
           | [] => [String c ""]
           end
  end.

(** [sep.join(pieces)] *)
Fixpoint join (sep : string) (pieces : list string) : string :=
  match pieces with
  | [] => ""
  | [p] => p
  | p :: ps => p +:+ sep +:+ join sep ps
  end.

(** [str(n)] for an integer. *)
Definition of_int (n : Z) : string := NilEmpty.string_of_int (Z.to_int n).

(** [c.lower()] on one character: the upper-case letters of Basic Latin
    (A-Z) and of Latin-1 (U+00C0-U+00DE without the multiplication sign
    U+00D7) move 32 places up. *)
Definition lower_char (c : ascii) : ascii :=
  let n := nat_of_ascii c in
  if ((65 <=? n)%nat && (n <=? 90)%nat)
     || ((192 <=? n)%nat && (n <=? 222)%nat && negb (n =? 215)%nat)
  then ascii_of_nat (n + 32) else c.

(** [s.lower()] *)
Fixpoint lower (s : string) : string :=
  match s with
  | EmptyString => EmptyString
  | String c s' => String (lower_char c) (lower s')
  end.

(** [s.startswith(p)] *)
Definition startswith (p s : string) : bool := String.prefix p s.

(** [c in s] for a character [c]. *)
Fixpoint contains (c : ascii) (s : string) : bool :=
  match s with
  | EmptyString => false
  | String d s' => bool_decide (c = d) || contains c s'
  end.

(** [s.rfind(c)]: the index of the last occurrence, or -1. *)
Fixpoint rfind (c : ascii) (s : string) : Z :=
  match s with
  | EmptyString => -1
  | String d s' =>
      let r := rfind c s' in
      if 0 <=? r then r + 1
      else if decide (d = c) then 0 else -1
  end.

(** [s[i:]] for [0 <= i]. *)
Definition from (i : Z) (s : string) : string :=
  String.substring (Z.to_nat i) (String.length s - Z.to_nat i) s.

(** [s[:n]] for [0 <= n]. *)
Definition upto (n : nat) (s : string) : string :=
  String.substring 0 n s.

(** [s * n] *)
Fixpoint times (s : string) (n : nat) : string :=
  match n with
  | O => ""
  | S n' => s +:+ times s n'
  end.

(** [sub in s] for a string [sub]. *)
Fixpoint has_substring (sub s : string) : bool :=
  String.prefix sub s
  || match s with
     | EmptyString => false
     | String _ s' => has_substring sub s'
     end.

(** [s.replace(old, new)] for a non-empty [old]: the occurrences are
    replaced from left to right; [skip] counts the characters of an
    occurrence still to be dropped. *)
Fixpoint replace_from (skip : nat) (old new s : string) : string :=
  match s with
  | EmptyString => EmptyString
  | String c s' =>
      match skip with
      | S skip' => replace_from skip' old new s'
      | O =>
          if String.prefix old s
          then new +:+ replace_from (String.length old - 1) old new s'
          else String c (replace_from 0 old new s')
      end
  end.

Definition replace (old new s : string) : string := replace_from 0 old new s.

(** [bool(s)]: a string is truthy when it is not empty. *)
Definition nonempty (s : string) : bool :=
  match s with EmptyString => false | _ => true end.

(** Whether every character of [s] is below 128. *)
Fixpoint is_ascii (s : string) : bool :=
  match s with
  | EmptyString => true
  | String c s' => (nat_of_ascii c <? 128)%nat && is_ascii s'
  end.

(** The number of bytes of the UTF-8 encoding of [s]: one byte for a code
    point below 128, two for the others of the range modelled here. *)
Fixpoint utf8_len (s : string) : Z :=
  match s with
  | EmptyString => 0
  | String c s' => (if (nat_of_ascii c <? 128)%nat then 1 else 2) + utf8_len s'
  end.

End PyStr.

(* ===================================================================== *)
(** * Chunker ([pipeline_utils.chunk_code]) *)
(* ===================================================================== *)

(** [CHUNK_SIZE = 12000] *)
Definition CHUNK_SIZE : Z := 12000.

(** The dictionary appended to [chunks]. *)
Record chunk := Chunk {
  file_path : string;
  chunk_id : Z;
  start_line : Z;
  end_line : Z;
  code_snippet : string
}.

#[global] Instance chunk_eq_dec : EqDecision chunk.
Proof. solve_decision. Defined.

Module Chunker.
Import PyStr.

(** [len(line + '\n')] *)
Definition line_size (line : string) : Z := len (line +:+ NL).

(** [f"# {actual_line_num}: {chunk_line}"] for every line of the buffer,
    [actual_line_num = start_line + idx]. *)
Fixpoint numbered_lines (start_line : Z) (chunk_lines : list string)
  : list string :=
  match chunk_lines with
  | [] => []
  | chunk_line :: rest =>
      ("# " +:+ of_int start_line +:+ ": " +:+ chunk_line)
        :: numbered_lines (start_line + 1) rest
  end.

(** The chunk built from the pending buffer: the body shared by the
    flush inside the loop and the one after it. *)
Definition make_chunk (path : string) (id line_offset : Z)
           (current_chunk_lines : list string) : chunk :=
  let start_line := line_offset in
  let end_line := line_offset + Z.of_nat (length current_chunk_lines) - 1 in
  let chunk_header :=
    "### FILE: " +:+ path +:+ NL +:+
    "### LINES: " +:+ of_int start_line +:+ "-" +:+ of_int end_line +:+ NL in
  {| file_path := path;
     chunk_id := id;
     start_line := start_line;
     end_line := end_line;
     code_snippet :=
       chunk_header +:+ join NL (numbered_lines start_line current_chunk_lines) |}.

(** The local variables of [chunk_code] that the loop updates. *)
Record state := State {
  chunks : list chunk;
  next_chunk_id : Z;
  current_chunk_lines : list string;
  current_chunk_size : Z;
  line_offset : Z
}.

Definition init : state :=
  {| chunks := []; next_chunk_id := 1; current_chunk_lines := [];
     current_chunk_size := 0; line_offset := 1 |}.

(** "Reset for next chunk": close the pending buffer. *)
Definition flush (path : string) (st : state) : state :=
  let c := make_chunk path (next_chunk_id st) (line_offset st)
                      (current_chunk_lines st) in
  {| chunks := chunks st ++ [c];
     next_chunk_id := next_chunk_id st + 1;
     current_chunk_lines := [];
     current_chunk_size := 0;
     line_offset := end_line c + 1 |}.

(** One iteration of [for i, line in enumerate(lines)]. *)
Definition step (path : string) (st : state) (line : string) : state :=
  let st' :=
    if (CHUNK_SIZE <? current_chunk_size st + line_size line)
       && bool_decide (current_chunk_lines st ≠ [])
    then flush path st else st in
  {| chunks := chunks st';
     next_chunk_id := next_chunk_id st';
     current_chunk_lines := current_chunk_lines st' ++ [line];
     current_chunk_size := current_chunk_size st' + line_size line;
     line_offset := line_offset st' |}.

Definition loop (path : string) (lines : list string) (st : state) : state :=
  fold_left (step path) lines st.

(** "Add remaining lines as final chunk". *)
Definition finish (path : string) (st : state) : list chunk :=
  if bool_decide (current_chunk_lines st ≠ [])
  then chunks (flush path st) else chunks st.

Definition chunk_code (path code : string) : list chunk :=
  finish path (loop path (split newline code) init).

(** ** What the properties speak about *)

(** The lines of the file, as [chunk_code] numbers them from 1. *)
Definition file_lines (code : string) : list string := split newline code.

(** N, the file's line count. *)
Definition line_count (code : string) : Z :=
  Z.of_nat (length (file_lines code)).

(** The source lines [start_line .. end_line] that a chunk stands for. *)
Definition chunk_lines (lines : list string) (c : chunk) : list string :=
  take (Z.to_nat (end_line c - start_line c + 1))
       (drop (Z.to_nat (start_line c - 1)) lines).

(** The size of a buffer as the loop accumulates it: every line counted
    with its terminator. *)
Definition total_size (ls : list string) : Z :=
  foldr (fun l acc => line_size l + acc) 0 ls.

Definition chunk_size (lines : list string) (c : chunk) : Z :=
  total_size (chunk_lines lines c).

(** The size of the same lines in bytes of UTF-8. *)
Definition chunk_bytes (lines : list string) (c : chunk) : Z :=
  foldr (fun l acc => utf8_len (l +:+ NL) + acc) 0 (chunk_lines lines c).

(** [cs] tiles the lines [s .. e-1]: identifiers count up from [id], the
    first chunk starts at [s], each next one starts right after the
    previous one ends, and the last one ends at [e - 1]. *)
Fixpoint tiles (id s : Z) (cs : list chunk) (e : Z) : Prop :=
  match cs with
  | [] => s = e
  | c :: cs' =>
      chunk_id c = id ∧ start_line c = s ∧ s ≤ end_line c
      ∧ tiles (id + 1) (end_line c + 1) cs' e
  end.

(** [cs] partitions the line numbers [1 .. N]: identifiers count from 1,
    every range is a non-empty part of [1 .. N], each chunk starts right
    after the previous one ends, every line number is in some chunk (no
    gap) and in one only (no overlap). *)
Definition partitions (cs : list chunk) (N : Z) : Prop :=
  (∀ k c, cs !! k = Some c → chunk_id c = Z.of_nat k + 1)
  ∧ (∀ c, c ∈ cs → 1 ≤ start_line c ∧ start_line c ≤ end_line c ∧ end_line c ≤ N)
  ∧ (∀ k c c', cs !! k = Some c → cs !! S k = Some c' →
               start_line c' = end_line c + 1)
  ∧ (∀ n, 1 ≤ n ≤ N → ∃ k c, cs !! k = Some c ∧ start_line c ≤ n ≤ end_line c)
  ∧ (∀ k k' c c' n, cs !! k = Some c → cs !! k' = Some c' →
                    start_line c ≤ n ≤ end_line c →
                    start_line c' ≤ n ≤ end_line c' → k = k').

(** ** Sample files *)

(** The letter e with an acute accent, U+00E9. *)
Definition e_acute : string := String (ascii_of_nat 233) "".

(** Two lines of 5000 accented letters each: 10001 characters, 20001
    bytes of UTF-8. *)
Definition accented_source : string :=
  times e_acute 5000 +:+ NL +:+ times e_acute 5000.

(** Four lines of 6000 letters and a last line of 996: 25000 characters,
    all of them ASCII. *)
Definition four_long_lines : string :=
  times (times "a" 6000 +:+ NL) 4 +:+ times "a" 996.

(** Twenty-four lines of 999 letters and a last line of 1000: 25000
    characters. *)
Definition many_short_lines : string :=
  times (times "a" 999 +:+ NL) 24 +:+ times "a" 1000.

(** Two lines of 11998 letters, each after a line of one letter, and a
    last line of 998: 25000 characters. *)
Definition alternating_lines : string :=
  "a" +:+ NL +:+ times "b" 11998 +:+ NL +:+
  "a" +:+ NL +:+ times "b" 11998 +:+ NL +:+ times "c" 998.

(** A line of 12001 letters between two short ones. *)
Definition one_long_line : string :=
  "x" +:+ NL +:+ times "y" 12001 +:+ NL +:+ "z".

(** ** Loop invariants *)

(** A closed chunk is sound for the lines read so far when it lies
    within them and respects the size bound, a lone line apart. *)
Definition chunk_ok (done : list string) (c : chunk) : Prop :=
  1 ≤ start_line c ∧ end_line c ≤ Z.of_nat (length done)
  ∧ (chunk_size done c ≤ CHUNK_SIZE ∨ start_line c = end_line c).

(** What holds of the loop variables after the lines [done] were read. *)
Record inv (done : list string) (st : state) : Prop := Inv {
  inv_tiles : tiles 1 1 (chunks st) (line_offset st);
  inv_id : next_chunk_id st = 1 + Z.of_nat (length (chunks st));
  inv_offset : 1 ≤ line_offset st;
  inv_buffer : ∃ closed, done = closed ++ current_chunk_lines st
                         ∧ Z.of_nat (length closed) = line_offset st - 1;
  inv_size : current_chunk_size st = total_size (current_chunk_lines st);
  inv_bound : current_chunk_size st ≤ CHUNK_SIZE
              ∨ length (current_chunk_lines st) = 1%nat;
  inv_chunks : Forall (chunk_ok done) (chunks st)
}.

(** The split is greedy: a buffer is closed only when the next line
    does not fit, so two neighbouring chunks together always exceed the
    bound, and so do the last closed chunk and the pending buffer. *)
Record adj (done : list string) (st : state) : Prop := Adj {
  adj_closed : ∀ k c c', chunks st !! k = Some c → chunks st !! S k = Some c' →
               CHUNK_SIZE < chunk_size done c + chunk_size done c';
  adj_pending : ∀ c, last (chunks st) = Some c →
                CHUNK_SIZE < chunk_size done c + current_chunk_size st;
  adj_fresh : current_chunk_lines st = [] → chunks st = []
}.

End Chunker.

(* ===================================================================== *)
(** * Path filter ([pipeline_utils.should_exclude_path]) *)
(* ===================================================================== *)

(** A relative [pathlib.Path], given by its [parts]. *)
Record Path := { parts : list string }.

#[global] Instance Path_eq_dec : EqDecision Path.
Proof. solve_decision. Defined.

Module PathFilter.
Import PyStr.

Definition SOURCE_EXTENSIONS : gset string :=
  list_to_set
    [ ".py"; ".js"; ".jsx"; ".ts"; ".tsx"; ".java"; ".go"; ".c"; ".cpp";
      ".cc"; ".cxx"; ".h"; ".hpp"; ".rs"; ".rb"; ".php"; ".swift"; ".kt";
      ".scala"; ".cs"; ".sh"; ".bash"; ".zsh"; ".fish"; ".ps1"; ".bat";
      ".cmd" ].

Definition EXCLUDED_DIRS : gset string :=
  list_to_set
    [ ".git"; ".venv"; "venv"; "node_modules"; "dist"; "build";
      "__pycache__"; ".pytest_cache"; ".idea"; ".vscode"; "target"; "bin";
      "obj"; ".gradle"; ".mvn"; "vendor"; "bower_components"; ".next";
      ".nuxt"; "coverage"; ".nyc_output"; "out"; "lib"; "assets"; "images";
      "img"; "pictures"; "pics"; "media"; "docs"; "documentation";
      ".github"; ".gitlab" ].

Definition EXCLUDED_EXTENSIONS : gset string :=
  list_to_set
    [ ".png"; ".jpg"; ".jpeg"; ".gif"; ".svg"; ".ico"; ".bmp"; ".tiff";
      ".tif"; ".webp"; ".heic"; ".heif"; ".psd"; ".ai"; ".eps"; ".raw";
      ".cr2"; ".nef"; ".pdf"; ".doc"; ".docx"; ".xls"; ".xlsx"; ".ppt";
      ".pptx"; ".odt"; ".ods"; ".zip"; ".tar"; ".gz"; ".bz2"; ".xz"; ".7z";
      ".rar"; ".tar.gz"; ".tar.bz2"; ".mp3"; ".mp4"; ".avi"; ".mov";
      ".wmv"; ".flv"; ".webm"; ".mkv"; ".m4v"; ".wav"; ".flac"; ".aac";
      ".ogg"; ".wma"; ".json"; ".yaml"; ".yml"; ".toml"; ".ini"; ".cfg";
      ".conf"; ".xml"; ".css"; ".scss"; ".sass"; ".less"; ".html"; ".htm";
      ".xhtml"; ".lock"; ".log"; ".cache"; ".md"; ".txt"; ".rtf"; ".csv";
      ".tsv"; ".xlsx"; ".xls"; ".db"; ".sqlite"; ".sqlite3"; ".mdb";
      ".accdb"; ".exe"; ".dll"; ".so"; ".dylib"; ".a"; ".lib"; ".woff";
      ".woff2"; ".ttf"; ".eot"; ".otf"; ".map" ].

Definition EXCLUDED_FILES : gset string :=
  list_to_set
    [ "package.json"; "package-lock.json"; "yarn.lock"; "pnpm-lock.yaml";
      "requirements.txt"; "requirements-dev.txt"; "Pipfile";
      "Pipfile.lock"; "poetry.lock"; "setup.py"; "setup.cfg";
      "pyproject.toml"; "composer.json"; "composer.lock"; "Gemfile";
      "Gemfile.lock"; "go.mod"; "go.sum"; "Cargo.toml"; "Cargo.lock";
      "pom.xml"; "build.gradle"; "build.gradle.kts"; "gradle.properties";
      "package.xml"; "bower.json"; ".bowerrc"; ".gitignore";
      ".gitattributes"; ".gitmodules"; ".gitkeep"; ".env"; ".env.local";
      ".env.development"; ".env.production"; ".dockerignore"; "Dockerfile";
      "docker-compose.yml"; "docker-compose.yaml"; ".editorconfig";
      ".prettierrc"; ".prettierignore"; ".eslintrc"; ".eslintignore";
      "tsconfig.json"; "jsconfig.json"; "webpack.config.js";
      "vite.config.js"; "rollup.config.js"; ".babelrc"; "babel.config.js";
      "jest.config.js"; "jest.config.ts"; ".nycrc"; "karma.conf.js";
      "protractor.conf.js"; ".travis.yml"; ".circleci"; "appveyor.yml";
      "azure-pipelines.yml"; "Makefile"; "CMakeLists.txt"; "configure";
      "configure.ac"; "README.md"; "README.txt"; "README.rst";
      "CHANGELOG.md"; "LICENSE"; "CONTRIBUTING.md"; "CONTRIBUTORS.md";
      "AUTHORS"; "HISTORY.md"; ".vscode"; ".idea"; ".settings"; ".project";
      ".classpath"; ".DS_Store"; "Thumbs.db"; "desktop.ini"; "favicon.ico";
      "robots.txt"; "sitemap.xml" ].

(** ['.'] *)
Definition dot : ascii := "."%char.

(** [path.name]: the last part, empty for a path without parts. *)
Definition name (p : Path) : string := List.last (parts p) "".

(** [path.suffix]: the name from its last dot on, unless that dot is the
    first or the last character of the name. *)
Definition suffix (p : Path) : string :=
  let name := name p in
  let i := rfind dot name in
  if (0 <? i) && (i <? len name - 1) then from i name else "".

(** [str(path)] *)
Definition to_str (p : Path) : string :=
  match parts p with
  | [] => "."
  | ps => join "/" ps
  end.

(** [x in S] for a set of strings. *)
Definition mem (x : string) (S : gset string) : bool := bool_decide (x ∈ S).

(** [for part in path_obj.parts: ...]: [true] when the loop returns
    [True], [false] when it runs to its end. *)
Fixpoint parts_loop (path_obj : Path) (ps : list string) : bool :=
  match ps with
  | [] => false
  | part :: rest =>
      if startswith "." part && negb (String.eqb part ".")
         && negb (String.eqb part "..")
      then
        if String.eqb part (name path_obj) && nonempty (suffix path_obj)
        then
          if mem (lower (suffix path_obj)) SOURCE_EXTENSIONS
          then parts_loop path_obj rest                       (* continue *)
          else if mem (lower part) EXCLUDED_DIRS then true
               else parts_loop path_obj rest
        else true
      else if mem (lower part) EXCLUDED_DIRS then true
           else parts_loop path_obj rest
  end.

(** [{f.lower() for f in EXCLUDED_FILES}] *)
Definition excluded_files_lower : gset string := set_map lower EXCLUDED_FILES.

(** The checks on the file name and extension after the loop. *)
Definition file_checks (path_obj : Path) : bool :=
  if nonempty (suffix path_obj) || nonempty (name path_obj) then
    let file_ext :=
      if nonempty (suffix path_obj) then lower (suffix path_obj) else "" in
    let file_name := name path_obj in
    if mem (lower file_name) excluded_files_lower then true
    else if nonempty file_ext && mem file_ext EXCLUDED_EXTENSIONS then true
    else if negb (nonempty file_ext) then true
    else if negb (mem file_ext SOURCE_EXTENSIONS) then true
    else false
  else false.

Definition should_exclude_path (path : Path) : bool :=
  if parts_loop path (parts path) then true else file_checks path.

(** A string has a dot that is not its first character. *)
Definition inner_dot (s : string) : bool :=
  match s with
  | EmptyString => false
  | String _ s' => contains dot s'
  end.

End PathFilter.

(* ===================================================================== *)
(** * Source extractor ([pipeline_utils.extract_source_code]) *)
(* ===================================================================== *)

(** The exceptions that matter here: the [ValueError] that the extractor
    raises, and any other exception that [except Exception] catches. *)
Inductive exn :=
| ValueError (msg : string)
| Exception (msg : string).

#[global] Instance exn_eq_dec : EqDecision exn.
Proof. solve_decision. Defined.

(** [str(e)] *)
Definition exn_str (e : exn) : string :=
  match e with ValueError msg | Exception msg => msg end.

(** What [open(...).read()] does on a regular file: it returns the text
    (decoded with [errors='ignore'], so decoding itself never fails) or
    raises. *)
Inductive file_data :=
| Readable (content : string)
| Unreadable (e : exn).

Inductive entry_kind :=
| RegularFile (data : file_data)
| Directory.

(** One path that [rglob('*')] yields under the repository root, as
    [relative_to] the root. *)
Record entry := { rel : Path; kind : entry_kind }.

(** A directory on disk: the entries that [rglob('*')] yields, in the
    order it yields them. *)
Abbreviation tree := (list entry).

Module Extractor.
Import PyStr PathFilter.

(** [ord(c) < 32 and c not in '\n\r\t'] *)
Definition is_control (c : ascii) : bool :=
  let n := nat_of_ascii c in
  (n <? 32)%nat && negb ((n =? 10)%nat || (n =? 13)%nat || (n =? 9)%nat).

(** [len([c for c in s if ...])] *)
Fixpoint count_control (s : string) : Z :=
  match s with
  | EmptyString => 0
  | String c s' => (if is_control c then 1 else 0) + count_control s'
  end.

(** ['\x00' in content or len([...content[:1024]...]) > len(content[:1024]) * 0.3].
    For the integers that occur, at most 1024, the comparison with the
    double [n * 0.3] is the comparison [10 * k > 3 * n]. *)
Definition looks_binary (content : string) : bool :=
  let head := upto 1024 content in
  contains (ascii_of_nat 0) content
  || (3 * len head <? 10 * count_control head).

(** [source_files[key] = value] on a [dict], which keeps insertion order
    and replaces the value of a key that is present. *)
Fixpoint dict_set (key value : string) (d : list (string * string))
  : list (string * string) :=
  match d with
  | [] => [(key, value)]
  | (k, v) :: d' =>
      if String.eqb k key then (k, value) :: d'
      else (k, v) :: dict_set key value d'
  end.

(** [d.get(key)] *)
Fixpoint dict_get (key : string) (d : list (string * string)) : option string :=
  match d with
  | [] => None
  | (k, v) :: d' => if String.eqb k key then Some v else dict_get key d'
  end.

(** The body of [for file_path in repo_path_abs.rglob('*')]. *)
Definition visit (source_files : list (string * string)) (e : entry)
  : list (string * string) :=
  match kind e with
  | Directory => source_files                       (* not [is_file()] *)
  | RegularFile data =>
      let relative_path := rel e in
      if should_exclude_path relative_path then source_files
      else
        let file_ext :=
          if nonempty (suffix relative_path)
          then lower (suffix relative_path) else "" in
        if negb (mem file_ext SOURCE_EXTENSIONS) then source_files
        else
          match data with
          | Unreadable _ => source_files             (* except: continue *)
          | Readable content =>
              if looks_binary content then source_files
              else dict_set (to_str relative_path) content source_files
          end
  end.

(** [extract_source_code(repo_path)] on a disk [fs], which maps the path
    of a directory to what it holds. *)
Definition extract_source_code (fs : gmap string tree) (repo_path : string)
  : exn + list (string * string) :=
  match fs !! repo_path with
  | None =>
      inl (ValueError ("Repository path does not exist: " +:+ repo_path))
  | Some entries => inr (fold_left visit entries [])
  end.

(** The content that the extractor keeps for an entry, if it keeps it. *)
Definition kept (e : entry) : option string :=
  match kind e with
  | RegularFile (Readable content) =>
      if should_exclude_path (rel e) then None
      else if negb (mem (lower (suffix (rel e))) SOURCE_EXTENSIONS) then None
      else if looks_binary content then None
      else Some content
  | _ => None
  end.

(** ** A sample repository *)

Definition source_file (ps : list string) (content : string) : entry :=
  {| rel := {| parts := ps |}; kind := RegularFile (Readable content) |}.

Definition locked_file (ps : list string) : entry :=
  {| rel := {| parts := ps |};
     kind := RegularFile (Unreadable (Exception "Permission denied")) |}.

Definition directory (ps : list string) : entry :=
  {| rel := {| parts := ps |}; kind := Directory |}.

(** Ten source files in two directories; the read of one of them fails. *)
Definition ten_files : tree :=
  [ directory ["api"]; directory ["core"];
    source_file ["main.py"] "import api";
    source_file ["api"; "auth.py"] "def login(): pass";
    source_file ["api"; "users.py"] "def users(): pass";
    locked_file ["api"; "tokens.py"];
    source_file ["api"; "Routes.JS"] "export default []";
    source_file ["core"; "db.go"] "package core";
    source_file ["core"; "hash.rs"] "fn hash() {}";
    source_file ["core"; "io.c"] "int main(void) { return 0; }";
    source_file ["core"; "io.h"] "int main(void);";
    source_file ["core"; "queue.ts"] "export const q = []" ].

Definition sample_disk : gmap string tree :=
  {[ "github_repos/demo" := ten_files ]}.

End Extractor.

(* ===================================================================== *)
(** * Schemas ([app/schemas.py]) *)
(* ===================================================================== *)

(** "Individual vulnerability finding".  [severity] is a [str]: the model
    class does not restrict it to the five names its comment lists. *)
Module Vulnerability.
Record t := {
  vulnerability_type : string;
  severity : string;
  file_path : string;
  start_line : Z;
  end_line : Z;
  description : string;
  code_snippet : string;
  recommendation : string;
  cwe_id : option string;
  owasp_category : option string;
  vibe_coder_explanation : option string
}.
End Vulnerability.

#[global] Instance Vulnerability_eq_dec : EqDecision Vulnerability.t.
Proof. solve_decision. Defined.

(** "Result of scanning a code chunk" *)
Module VulnerabilityScanResult.
Record t := {
  chunk_id : Z;
  file_path : string;
  vulnerabilities : list Vulnerability.t;
  scan_status : string;
  error_message : option string
}.
End VulnerabilityScanResult.

#[global] Instance VulnerabilityScanResult_eq_dec :
  EqDecision VulnerabilityScanResult.t.
Proof. solve_decision. Defined.

(** The values stored in the fields of a MongoDB document. *)
Inductive value :=
| VNone
| VStr (s : string)
| VInt (n : Z)
| VTime (t : Z)                                         (* a [datetime] *)
| VOid (n : nat)                                        (* an [ObjectId] *)
| VChunks (cs : list chunk)
| VScans (rs : list VulnerabilityScanResult.t).

#[global] Instance value_eq_dec : EqDecision value.
Proof. solve_decision. Defined.

(** A document: a [dict] from field names to values. *)
Abbreviation document := (gmap string value).

Definition VOpt (o : option string) : value :=
  match o with Some s => VStr s | None => VNone end.

Module PipelineResult.
Record t := {
  user_id : string;
  github_id : string;
  repo_id : string;
  repo_name : string;
  chunks : list chunk;
  total_chunks : Z;
  repo_path : option string;
  created_at : Z;
  updated_at : Z
}.

Definition model_dump (r : t) : document :=
  list_to_map
    [ ("user_id", VStr (user_id r)); ("github_id", VStr (github_id r));
      ("repo_id", VStr (repo_id r)); ("repo_name", VStr (repo_name r));
      ("chunks", VChunks (chunks r)); ("total_chunks", VInt (total_chunks r));
      ("repo_path", VOpt (repo_path r));
      ("created_at", VTime (created_at r));
      ("updated_at", VTime (updated_at r)) ].
End PipelineResult.

(** "Complete vulnerability report for a repository" *)
Module VulnerabilityReport.
Record t := {
  user_id : string;
  github_id : string;
  repo_id : string;
  repo_name : string;
  total_vulnerabilities : Z;
  critical_count : Z;
  high_count : Z;
  medium_count : Z;
  low_count : Z;
  info_count : Z;
  scan_results : list VulnerabilityScanResult.t;
  scan_completed_at : Z;
  created_at : Z;
  updated_at : Z
}.

Definition model_dump (r : t) : document :=
  list_to_map
    [ ("user_id", VStr (user_id r)); ("github_id", VStr (github_id r));
      ("repo_id", VStr (repo_id r)); ("repo_name", VStr (repo_name r));
      ("total_vulnerabilities", VInt (total_vulnerabilities r));
      ("critical_count", VInt (critical_count r));
      ("high_count", VInt (high_count r));
      ("medium_count", VInt (medium_count r));
      ("low_count", VInt (low_count r));
      ("info_count", VInt (info_count r));
      ("scan_results", VScans (scan_results r));
      ("scan_completed_at", VTime (scan_completed_at r));
      ("created_at", VTime (created_at r));
      ("updated_at", VTime (updated_at r)) ].
End VulnerabilityReport.

(* ===================================================================== *)
(** * Report aggregation *)
(* ===================================================================== *)

Module Aggregator.
Import PyStr.

(** [sum(...)] of integers. *)
Definition sum (zs : list Z) : Z := foldr Z.add 0 zs.

(** [len(l)] of a list. *)
Definition llen {A} (l : list A) : Z := Z.of_nat (length l).

(** [sum(1 for v in vs if v.severity == name)] *)
Definition count_severity (name : string) (vs : list Vulnerability.t) : Z :=
  sum (map (fun _ => 1)
           (filter (fun v => Vulnerability.severity v = name) vs)).

(** In [save_vulnerability_report]: [all_vulnerabilities], filled by
    [extend] over the scan results. *)
Definition all_vulnerabilities (scan_results : list VulnerabilityScanResult.t)
  : list Vulnerability.t :=
  fold_left (fun acc r => acc ++ VulnerabilityScanResult.vulnerabilities r)
            scan_results [].

(** In [run_pipeline]:
    [sum(1 for result in scan_results_dict for v in result['vulnerabilities']
         if v['severity'] == name)] *)
Definition count_nested (name : string)
           (scan_results : list VulnerabilityScanResult.t) : Z :=
  sum (map (fun _ => 1)
           (filter (fun v => Vulnerability.severity v = name)
                   (r ← scan_results; VulnerabilityScanResult.vulnerabilities r))).

(** [severity_counts] of [run_pipeline]. *)
Record severity_breakdown := {
  critical : Z;
  high : Z;
  medium : Z;
  low : Z;
  info : Z
}.

(** The [vulnerability_report] dictionary that [run_pipeline] returns. *)
Record report := {
  total_vulnerabilities : Z;
  breakdown : severity_breakdown;
  scan_results : list VulnerabilityScanResult.t
}.

(** Lines 86-114 of [run_pipeline]. *)
Definition summarize (scan_results : list VulnerabilityScanResult.t) : report :=
  let total_vulns :=
    sum (map (fun r => llen (VulnerabilityScanResult.vulnerabilities r))
             scan_results) in
  let severity_counts :=
    {| critical := count_nested "Critical" scan_results;
       high := count_nested "High" scan_results;
       medium := count_nested "Medium" scan_results;
       low := count_nested "Low" scan_results;
       info := count_nested "Info" scan_results |} in
  {| total_vulnerabilities := total_vulns;
     breakdown := severity_counts;
     scan_results := scan_results |}.

(** Lines 126-154 of [save_vulnerability_report]: the report built from
    the scan results and three readings of the clock. *)
Definition build_report (user_id github_id repo_id repo_name : string)
           (scan_results : list VulnerabilityScanResult.t)
           (completed created updated : Z) : VulnerabilityReport.t :=
  let all := all_vulnerabilities scan_results in
  {| VulnerabilityReport.user_id := user_id;
     VulnerabilityReport.github_id := github_id;
     VulnerabilityReport.repo_id := repo_id;
     VulnerabilityReport.repo_name := repo_name;
     VulnerabilityReport.total_vulnerabilities := llen all;
     VulnerabilityReport.critical_count := count_severity "Critical" all;
     VulnerabilityReport.high_count := count_severity "High" all;
     VulnerabilityReport.medium_count := count_severity "Medium" all;
     VulnerabilityReport.low_count := count_severity "Low" all;
     VulnerabilityReport.info_count := count_severity "Info" all;
     VulnerabilityReport.scan_results := scan_results;
     VulnerabilityReport.scan_completed_at := completed;
     VulnerabilityReport.created_at := created;
     VulnerabilityReport.updated_at := updated |}.

(** The sum of the five counters, in the returned summary and in the
    stored report. *)
Definition breakdown_sum (b : severity_breakdown) : Z :=
  critical b + high b + medium b + low b + info b.

Definition counts_sum (r : VulnerabilityReport.t) : Z :=
  VulnerabilityReport.critical_count r + VulnerabilityReport.high_count r
  + VulnerabilityReport.medium_count r + VulnerabilityReport.low_count r
  + VulnerabilityReport.info_count r.

(** All findings of all scan results, in order. *)
Definition findings (scan_results : list VulnerabilityScanResult.t)
  : list Vulnerability.t :=
  r ← scan_results; VulnerabilityScanResult.vulnerabilities r.

(** The number of findings of one severity. *)
Definition with_severity (name : string) (vs : list Vulnerability.t) : Z :=
  llen (filter (fun v => Vulnerability.severity v = name) vs).

(** The five severity names the counters look for. *)
Definition severity_names : list string :=
  ["Critical"; "High"; "Medium"; "Low"; "Info"].

Definition known_severity (v : Vulnerability.t) : Prop :=
  Vulnerability.severity v ∈ severity_names.

(** A finding the analysis engine may return: its severity is written in
    lower case. *)
Definition lowercase_finding : Vulnerability.t :=
  {| Vulnerability.vulnerability_type := "SQL Injection";
     Vulnerability.severity := "critical";
     Vulnerability.file_path := "api/users.py";
     Vulnerability.start_line := 12;
     Vulnerability.end_line := 14;
     Vulnerability.description := "Query built by string concatenation";
     Vulnerability.code_snippet := "cursor.execute(query + name)";
     Vulnerability.recommendation := "Use a parameterised query";
     Vulnerability.cwe_id := Some "CWE-89";
     Vulnerability.owasp_category := None;
     Vulnerability.vibe_coder_explanation := None |}.

Definition graded_finding (severity : string) : Vulnerability.t :=
  {| Vulnerability.vulnerability_type := "Hardcoded Secret";
     Vulnerability.severity := severity;
     Vulnerability.file_path := "core/db.go";
     Vulnerability.start_line := 3;
     Vulnerability.end_line := 3;
     Vulnerability.description := "Password in source";
     Vulnerability.code_snippet := "const password = ...";
     Vulnerability.recommendation := "Read it from the environment";
     Vulnerability.cwe_id := Some "CWE-798";
     Vulnerability.owasp_category := None;
     Vulnerability.vibe_coder_explanation := None |}.

Definition graded_scan : VulnerabilityScanResult.t :=
  {| VulnerabilityScanResult.chunk_id := 1;
     VulnerabilityScanResult.file_path := "core/db.go";
     VulnerabilityScanResult.vulnerabilities :=
       [graded_finding "Critical"; graded_finding "Low"; graded_finding "Low"];
     VulnerabilityScanResult.scan_status := "completed";
     VulnerabilityScanResult.error_message := None |}.

Definition lowercase_scan : VulnerabilityScanResult.t :=
  {| VulnerabilityScanResult.chunk_id := 1;
     VulnerabilityScanResult.file_path := "api/users.py";
     VulnerabilityScanResult.vulnerabilities := [lowercase_finding];
     VulnerabilityScanResult.scan_status := "completed";
     VulnerabilityScanResult.error_message := None |}.

End Aggregator.

(* ===================================================================== *)
(** * The world outside the program *)
(* ===================================================================== *)

(** What [subprocess.run(['git', 'clone', url, target], check=True,
    timeout=300)] does.  A clone that is killed at the timeout cannot tidy
    up after itself: it may leave a part of the repository in [target]. *)
Inductive git_outcome :=
| GitCloned (content : tree)     (* exit status 0; [target] holds [content] *)
| GitTimeout (partial : option tree)         (* [subprocess.TimeoutExpired] *)
| GitFailed (stderr description : string)  (* [subprocess.CalledProcessError] *)
| GitMissing                                         (* [FileNotFoundError] *)
| GitError (e : exn).                              (* any other [Exception] *)

(** What [vulnerability_detector.analyze_repository(chunks)] does.  The
    module is not part of the sources at hand: the call raises, or returns
    scan results, or returns a value on which the aggregation that follows
    in [run_pipeline] raises (an element without [model_dump], say). *)
Inductive analysis_outcome :=
| AnalysisRaises (e : exn)
| AnalysisReturns (scan_results : list VulnerabilityScanResult.t)
| AnalysisUnusable (e : exn).

(** The behaviour of everything the program calls but does not own. *)
Record env := {
  clock : nat → Z;                  (* [datetime.now()], reading by reading *)
  git : string → string → git_outcome;
  analyze_repository : list chunk → analysis_outcome;
  db_fault : nat → option exn;      (* the n-th database operation raises *)
  walk_fault : string → option exn;
    (* the walk over the directory raises: an entry that cannot be examined,
       a path that cannot be printed *)
  rmtree_fault : string → option exn;     (* [shutil.rmtree(path)] raises *)
  rmtree_leaves : string → entry → bool
    (* the entries still there when [shutil.rmtree(path)] raises *)
}.

(** The state the program reads and writes.  The disk maps the path of a
    directory to the entries under it; how these directories nest is not
    modelled. *)
Record world := {
  disk : gmap string tree;
  pipeline_results : list document;
  vulnerability_reports : list document;
  ticks : nat;              (* readings of the clock taken so far *)
  oids : nat;               (* [ObjectId]s handed out so far *)
  db_calls : nat;           (* database operations started so far *)
  removals : list string    (* the paths [shutil.rmtree] was called with *)
}.

Definition set_disk (f : gmap string tree → gmap string tree) (w : world) : world :=
  {| disk := f (disk w); pipeline_results := pipeline_results w;
     vulnerability_reports := vulnerability_reports w; ticks := ticks w;
     oids := oids w; db_calls := db_calls w; removals := removals w |}.

Definition set_ticks (n : nat) (w : world) : world :=
  {| disk := disk w; pipeline_results := pipeline_results w;
     vulnerability_reports := vulnerability_reports w; ticks := n;
     oids := oids w; db_calls := db_calls w; removals := removals w |}.

Definition set_oids (n : nat) (w : world) : world :=
  {| disk := disk w; pipeline_results := pipeline_results w;
     vulnerability_reports := vulnerability_reports w; ticks := ticks w;
     oids := n; db_calls := db_calls w; removals := removals w |}.

Definition set_db_calls (n : nat) (w : world) : world :=
  {| disk := disk w; pipeline_results := pipeline_results w;
     vulnerability_reports := vulnerability_reports w; ticks := ticks w;
     oids := oids w; db_calls := n; removals := removals w |}.

Definition set_removals (l : list string) (w : world) : world :=
  {| disk := disk w; pipeline_results := pipeline_results w;
     vulnerability_reports := vulnerability_reports w; ticks := ticks w;
     oids := oids w; db_calls := db_calls w; removals := l |}.

(** The two collections of [app/database.py] that the pipeline uses. *)
Inductive collection := PipelineResults | VulnerabilityReports.

Definition get_collection (c : collection) (w : world) : list document :=
  match c with
  | PipelineResults => pipeline_results w
  | VulnerabilityReports => vulnerability_reports w
  end.

Definition set_collection (c : collection) (docs : list document) (w : world)
  : world :=
  match c with
  | PipelineResults =>
      {| disk := disk w; pipeline_results := docs;
         vulnerability_reports := vulnerability_reports w; ticks := ticks w;
         oids := oids w; db_calls := db_calls w; removals := removals w |}
  | VulnerabilityReports =>
      {| disk := disk w; pipeline_results := pipeline_results w;
         vulnerability_reports := docs; ticks := ticks w;
         oids := oids w; db_calls := db_calls w; removals := removals w |}
  end.

(** ** Computations that read and write the world and may raise *)

Definition M (A : Type) : Type := world → (exn + A) * world.

#[global] Instance M_ret : MRet M := fun A (a : A) w => (inr a, w).

#[global] Instance M_bind : MBind M := fun A B (k : A → M B) (m : M A) w =>
  match m w with
  | (inl e, w') => (inl e, w')
  | (inr a, w') => k a w'
  end.

(** [raise e] *)
Definition raise {A} (e : exn) : M A := fun w => (inl e, w).

(** [try: body  except Exception as e: handler(e)] *)
Definition try_except {A} (body : M A) (handler : exn → M A) : M A :=
  fun w =>
    match body w with
    | (inl e, w') => handler e w'
    | (inr a, w') => (inr a, w')
    end.

(** [try: body  finally: final]: [final] runs whatever [body] did; what
    [body] returned or raised stands unless [final] raises. *)
Definition try_finally {A} (body : M A) (final : M unit) : M A :=
  fun w =>
    match body w with
    | (r, w') =>
        match final w' with
        | (inl e, w'') => (inl e, w'')
        | (inr _, w'') => (r, w'')
        end
    end.

(* ===================================================================== *)
(** * Store ([app/utils/mongo_utils.py]) *)
(* ===================================================================== *)

Module Store.
Section WithEnv.
Context (E : env).

(** [datetime.now()] *)
Definition now : M Z :=
  fun w => (inr (clock E (ticks w)), set_ticks (S (ticks w)) w).

(** A document matches a query when it has every field of the query with
    the value the query gives. *)
Definition matches (query doc : document) : bool :=
  bool_decide (map_Forall (fun k v => doc !! k = Some v) query).

(** An operation on the database: it is counted, and it raises when the
    environment says that this one fails. *)
Definition db_operation {A} (op : world → A * world) : M A :=
  fun w =>
    let w1 := set_db_calls (S (db_calls w)) w in
    match db_fault E (db_calls w) with
    | Some e => (inl e, w1)
    | None => let (a, w2) := op w1 in (inr a, w2)
    end.

(** [await collection.find_one(query)]: the first document that
    matches, or [None]. *)
Definition find_one (c : collection) (query : document) : M (option document) :=
  db_operation (fun w =>
    (snd <$> list_find (fun doc => matches query doc = true) (get_collection c w),
     w)).

(** [{"$set": data}] applied to the first document that matches. *)
Fixpoint set_first (query data : document) (docs : list document)
  : list document :=
  match docs with
  | [] => []
  | doc :: docs' =>
      if matches query doc then (data ∪ doc) :: docs'
      else doc :: set_first query data docs'
  end.

(** [await collection.update_one(query, {"$set": data})] *)
Definition update_one (c : collection) (query data : document) : M unit :=
  db_operation (fun w =>
    (tt, set_collection c (set_first query data (get_collection c w)) w)).

(** [await collection.insert_one(doc)]: the document is stored under a
    new [ObjectId], which [inserted_id] returns. *)
Definition insert_one (c : collection) (doc : document) : M value :=
  db_operation (fun w =>
    let id := VOid (oids w) in
    (id, set_oids (S (oids w))
           (set_collection c (get_collection c w ++ [<["_id" := id]> doc]) w))).

(** [{"user_id": user_id, "github_id": github_id, "repo_id": repo_id}] *)
Definition key_query (user_id github_id repo_id : string) : document :=
  list_to_map [ ("user_id", VStr user_id); ("github_id", VStr github_id);
                ("repo_id", VStr repo_id) ].

(** [existing["_id"]], a [KeyError] when the field is missing. *)
Definition get_id (existing : document) : M value :=
  match existing !! "_id" with
  | Some id => mret id
  | None => raise (Exception "'_id'")
  end.

(** The branch [if existing:] shared by the two save functions: the
    dumped model with the [created_at] of the existing document (a new
    reading of the clock if it has none; the default is evaluated either
    way) and a new [updated_at], set on the existing document. *)
Definition update_existing (c : collection) (existing dumped : document)
  : M value :=
  let update_data := dumped in
  fallback ← now;
  let update_data :=
    <["created_at" := default (VTime fallback) (existing !! "created_at")]>
      update_data in
  updated ← now;
  let update_data := <["updated_at" := VTime updated]> update_data in
  id ← get_id existing;
  _ ← update_one c {[ "_id" := id ]} update_data;
  get_id existing.

Definition save_pipeline_result (user_id github_id repo_id repo_name : string)
           (chunks : list chunk) (repo_path : option string) : M value :=
  existing ← find_one PipelineResults (key_query user_id github_id repo_id);
  created ← now;
  updated ← now;
  let pipeline_result :=
    {| PipelineResult.user_id := user_id;
       PipelineResult.github_id := github_id;
       PipelineResult.repo_id := repo_id;
       PipelineResult.repo_name := repo_name;
       PipelineResult.chunks := chunks;
       PipelineResult.total_chunks := Aggregator.llen chunks;
       PipelineResult.repo_path := repo_path;
       PipelineResult.created_at := created;
       PipelineResult.updated_at := updated |} in
  match existing with
  | Some existing =>
      update_existing PipelineResults existing
                      (PipelineResult.model_dump pipeline_result)
  | None =>
      insert_one PipelineResults (PipelineResult.model_dump pipeline_result)
  end.

Definition save_vulnerability_report
           (user_id github_id repo_id repo_name : string)
           (scan_results : list VulnerabilityScanResult.t) : M value :=
  completed ← now;
  created ← now;
  updated ← now;
  let vulnerability_report :=
    Aggregator.build_report user_id github_id repo_id repo_name scan_results
                            completed created updated in
  existing ← find_one VulnerabilityReports (key_query user_id github_id repo_id);
  match existing with
  | Some existing =>
      update_existing VulnerabilityReports existing
                      (VulnerabilityReport.model_dump vulnerability_report)
  | None =>
      insert_one VulnerabilityReports
                 (VulnerabilityReport.model_dump vulnerability_report)
  end.

End WithEnv.

(** The fields that [update_existing] sets on the existing document,
    given the two readings of the clock it takes. *)
Definition update_data (existing dumped : document) (fallback updated : Z)
  : document :=
  <["updated_at" := VTime updated]>
    (<["created_at" := default (VTime fallback) (existing !! "created_at")]>
       dumped).

End Store.

(* ===================================================================== *)
(** * Orchestrator ([pipeline_utils.clone_repository],
      [pipeline_utils.process_repository], [controllers/pipeline.run_pipeline]) *)
(* ===================================================================== *)

Module Pipeline.
Import PyStr.

(** The dictionary that [clone_repository] returns. *)
Record clone_result := {
  clone_success : bool;
  clone_path : option string;
  clone_message : string
}.

(** The dictionary that [run_pipeline] returns; the keys [repo_path] and
    [total_chunks] are present in the success case only. *)
Record run_result := {
  success : bool;
  message : string;
  repo_path : option string;
  total_chunks : option Z;
  chunks : list chunk;
  vulnerability_report : option Aggregator.report
}.

(** [str(Path(base) / name)] for a [name] without a slash. *)
Definition path_join (base name : string) : string :=
  if String.eqb name "" || String.eqb name "." then base
  else base +:+ "/" +:+ name.

(** [s.split('/')[-1]] *)
Definition last_segment (s : string) : string :=
  List.last (split "/"%char s) "".

(** [bool(access_token)] for an [Optional[str]]. *)
Definition truthy (o : option string) : bool :=
  match o with Some s => nonempty s | None => false end.

Section WithEnv.
Context (E : env).

(** [path.exists()] *)
Definition path_exists (path : string) : M bool :=
  fun w => (inr (bool_decide (is_Some (disk w !! path))), w).

(** [path.mkdir(exist_ok=True)] *)
Definition mkdir (path : string) : M unit :=
  fun w =>
    (inr tt,
     set_disk (fun d => match d !! path with
                        | Some _ => d
                        | None => <[path := []]> d
                        end) w).

(** [subprocess.run(['git', 'clone', clone_url, str(target_path)], ...)]:
    a clone that succeeds puts the directory on the disk; one that is
    killed at the timeout puts there what it had written; one that fails
    otherwise leaves the disk as it was. *)
Definition run_git_clone (clone_url target : string) : M git_outcome :=
  fun w =>
    match git E clone_url target with
    | GitCloned content =>
        (inr (GitCloned content), set_disk (insert target content) w)
    | GitTimeout (Some partial) =>
        (inr (GitTimeout (Some partial)), set_disk (insert target partial) w)
    | outcome => (inr outcome, w)
    end.

(** What a directory holds after a removal of [path] that raised: the
    entries removed before the error are gone, the others are left. *)
Definition left_over (path : string) (content : tree) : tree :=
  filter (fun e => rmtree_leaves E path e = true) content.

(** [shutil.rmtree(path)]: the call is recorded; it removes the
    directory with all it holds, or it raises at an entry that it cannot
    remove: then the directory is still there, without the entries removed
    before the error. *)
Definition rmtree (path : string) : M unit :=
  fun w =>
    let w1 := set_removals (removals w ++ [path]) w in
    match rmtree_fault E path with
    | Some e => (inl e, set_disk (alter (left_over path) path) w1)
    | None => (inr tt, set_disk (delete path) w1)
    end.

Definition clone_failed (msg : string) : clone_result :=
  {| clone_success := false; clone_path := None; clone_message := msg |}.

Definition clone_repository (repo_url target_dir_name base_dir : string)
           (access_token : option string) : M clone_result :=
  _ ← mkdir base_dir;
  if negb (startswith "http" repo_url) && negb (contains "/"%char repo_url)
  then
    mret (clone_failed
            ("Invalid repo URL format. Use " +:+ QUOTE +:+ "owner/repo"
             +:+ QUOTE +:+ " or full GitHub URL."))
  else
    let repo_url :=
      if negb (startswith "http" repo_url)
      then "https://github.com/" +:+ repo_url +:+ ".git" else repo_url in
    let target_path := path_join base_dir target_dir_name in
    present ← path_exists target_path;
    if (present : bool) then
      mret {| clone_success := true; clone_path := Some target_path;
              clone_message :=
                "Repository already exists at " +:+ target_path |}
    else
      let clone_url :=
        if truthy access_token && has_substring "github.com" repo_url
        then replace "https://github.com/"
                     ("https://" +:+ default "" access_token +:+ "@github.com/")
                     repo_url
        else repo_url in
      outcome ← run_git_clone clone_url target_path;
      match outcome with
      | GitCloned _ =>
          mret {| clone_success := true; clone_path := Some target_path;
                  clone_message :=
                    "Successfully cloned repository to " +:+ target_path |}
      | GitTimeout _ =>
          mret (clone_failed "Clone operation timed out after 5 minutes")
      | GitFailed stderr description =>
          let error_msg := if nonempty stderr then stderr else description in
          mret (clone_failed ("Failed to clone repository: " +:+ error_msg))
      | GitMissing =>
          mret (clone_failed "Git is not installed or not found in PATH")
      | GitError e =>
          mret (clone_failed ("Unexpected error during clone: " +:+ exn_str e))
      end.

(** [extract_source_code] on the disk of the world.  After the test
    for the root, the walk has no handler around [rglob], [is_file()] and
    the progress output: when one of these raises, the exception leaves
    [extract_source_code]. *)
Definition extract (repo_path : string) : M (list (string * string)) :=
  fun w =>
    match Extractor.extract_source_code (disk w) repo_path with
    | inl e => (inl e, w)
    | inr source_files =>
        match walk_fault E repo_path with
        | Some e => (inl e, w)
        | None => (inr source_files, w)
        end
    end.

Definition process_repository (repo_path : string) : M (list chunk) :=
  source_files ← extract repo_path;
  match source_files with
  | [] => mret []
  | _ =>
      mret (fold_left
              (fun all_chunks '(file_path, code) =>
                 all_chunks ++ Chunker.chunk_code file_path code)
              source_files [])
  end.

(** [scan_results = await analyze_repository(chunks)] followed by the
    aggregation of lines 84-114. *)
Definition analyze_and_summarize (chunks : list chunk)
  : M (list VulnerabilityScanResult.t * Aggregator.report) :=
  match analyze_repository E chunks with
  | AnalysisRaises e => raise e
  | AnalysisUnusable e => raise e
  | AnalysisReturns scan_results =>
      mret (scan_results, Aggregator.summarize scan_results)
  end.

(** The [try] block of [run_pipeline], lines 60-137. *)
Definition pipeline_body (github_repo_name user_id github_id repo_id : string)
           (repo_path : string) : M run_result :=
  chunks ← process_repository repo_path;
  _ ← try_except
        (_ ← Store.save_pipeline_result E user_id github_id repo_id
               github_repo_name chunks (Some repo_path);
         mret tt)
        (fun db_error => mret tt);
  vulnerability_report ←
    try_except
      ('(scan_results, report) ← analyze_and_summarize chunks;
       _ ← try_except
             (_ ← Store.save_vulnerability_report E user_id github_id repo_id
                    github_repo_name scan_results;
              mret tt)
             (fun vuln_db_error => mret tt);
       mret (Some report))
      (fun vuln_error => mret None);
  mret {| success := true;
          message := "Successfully processed repository: " +:+ github_repo_name;
          repo_path := Some repo_path;
          total_chunks := Some (Aggregator.llen chunks);
          chunks := chunks;
          vulnerability_report := vulnerability_report |}.

Definition failure (msg : string) : run_result :=
  {| success := false; message := msg; repo_path := None;
     total_chunks := None; chunks := []; vulnerability_report := None |}.

(** The [finally] block, lines 145-151. *)
Definition cleanup (cleanup_path : string) : M unit :=
  present ← path_exists cleanup_path;
  if (present : bool)
  then try_except (rmtree cleanup_path) (fun cleanup_error => mret tt)
  else mret tt.

(** The [try ... except ... finally] statement, lines 59-151. *)
Definition guarded (github_repo_name user_id github_id repo_id : string)
           (repo_path : string) : M run_result :=
  try_finally
    (try_except
       (pipeline_body github_repo_name user_id github_id repo_id repo_path)
       (fun e => mret (failure ("Error processing repository: " +:+ exn_str e))))
    (cleanup repo_path).

Definition run_pipeline (github_repo_name user_id github_id repo_id : string)
           (access_token : option string) : M run_result :=
  let base_dir := "github_repos" in
  _ ← mkdir base_dir;
  let repo_path := path_join base_dir (last_segment github_repo_name) in
  present ← path_exists repo_path;
  if negb present then
    clone_result ←
      clone_repository github_repo_name (last_segment github_repo_name)
                       base_dir access_token;
    if negb (clone_success clone_result) then
      mret (failure ("Failed to clone repository: "
                     +:+ clone_message clone_result))
    else
      match clone_path clone_result with
      | Some repo_path =>
          guarded github_repo_name user_id github_id repo_id repo_path
      | None => raise (Exception "expected str, bytes or os.PathLike object")
      end
  else
    guarded github_repo_name user_id github_id repo_id repo_path.

(** ** How a run reaches its [try] statement *)

(** The directory that the run works on. *)
Definition repo_dir (github_repo_name : string) : string :=
  path_join "github_repos" (last_segment github_repo_name).

(** The world after [base_dir.mkdir(exist_ok=True)]. *)
Definition started (w : world) : world := snd (mkdir "github_repos" w).

(** The directory is on the disk when the run starts: the [try]
    statement is entered in the world [w1]. *)
Definition pre_existing (github_repo_name : string) (w w1 : world) : Prop :=
  is_Some (disk (started w) !! repo_dir github_repo_name) ∧ w1 = started w.

(** The directory is not on the disk and [clone_repository] reports
    success, leaving the world [w1]. *)
Definition freshly_cloned (github_repo_name : string)
           (access_token : option string) (w w1 : world) : Prop :=
  disk (started w) !! repo_dir github_repo_name = None
  ∧ ∃ clone_result,
      clone_repository github_repo_name (last_segment github_repo_name)
                       "github_repos" access_token (started w)
      = (inr clone_result, w1)
      ∧ clone_success clone_result = true.

(** The directory is not on the disk and [clone_repository] reports a
    failure with the message [msg], leaving the world [w1]. *)
Definition clone_fails (github_repo_name : string)
           (access_token : option string) (w w1 : world) (msg : string) : Prop :=
  disk (started w) !! repo_dir github_repo_name = None
  ∧ ∃ clone_result,
      clone_repository github_repo_name (last_segment github_repo_name)
                       "github_repos" access_token (started w)
      = (inr clone_result, w1)
      ∧ clone_success clone_result = false
      ∧ clone_message clone_result = msg.

End WithEnv.

(** A computation that leaves the disk and the record of removals as
    they are. *)
Definition frames {A} (m : M A) : Prop :=
  ∀ w, disk (snd (m w)) = disk w ∧ removals (snd (m w)) = removals w.

(** A computation that never raises. *)
Definition returns {A} (m : M A) : Prop :=
  ∀ w, ∃ a w', m w = (inr a, w').

End Pipeline.

(* ===================================================================== *)
(** * Sample environments and worlds *)
(* ===================================================================== *)

Module Samples.

(** One scan result, without findings, for every chunk. *)
Definition clean_scan (c : chunk) : VulnerabilityScanResult.t :=
  {| VulnerabilityScanResult.chunk_id := chunk_id c;
     VulnerabilityScanResult.file_path := file_path c;
     VulnerabilityScanResult.vulnerabilities := [];
     VulnerabilityScanResult.scan_status := "completed";
     VulnerabilityScanResult.error_message := None |}.

(** A repository of one source file. *)
Definition small_repo : tree :=
  [ Extractor.directory ["src"];
    Extractor.source_file ["src"; "app.py"] "print(1)" ].

(** Everything works: the clone delivers the small repository, the
    analysis finds nothing, the database and the disk obey. *)
Definition calm : env :=
  {| clock := fun n => 1700000000 + Z.of_nat n;
     git := fun _ _ => GitCloned small_repo;
     analyze_repository := fun chunks => AnalysisReturns (map clean_scan chunks);
     db_fault := fun _ => None;
     walk_fault := fun _ => None;
     rmtree_fault := fun _ => None;
     rmtree_leaves := fun _ _ => false |}.

(** As [calm], but the analysis engine cannot be reached. *)
Definition engine_down : env :=
  {| clock := clock calm; git := git calm;
     analyze_repository := fun _ => AnalysisRaises (Exception "Connection error.");
     db_fault := db_fault calm; walk_fault := walk_fault calm;
     rmtree_fault := rmtree_fault calm; rmtree_leaves := rmtree_leaves calm |}.

(** As [calm], but the clone is refused. *)
Definition clone_refused : env :=
  {| clock := clock calm;
     git := fun _ _ => GitFailed "fatal: Authentication failed" "exit status 128";
     analyze_repository := analyze_repository calm;
     db_fault := db_fault calm; walk_fault := walk_fault calm;
     rmtree_fault := rmtree_fault calm; rmtree_leaves := rmtree_leaves calm |}.

(** As [calm], but the clone is killed at its timeout, after it has
    written the directory [src]. *)
Definition clone_killed : env :=
  {| clock := clock calm;
     git := fun _ _ => GitTimeout (Some [Extractor.directory ["src"]]);
     analyze_repository := analyze_repository calm;
     db_fault := db_fault calm; walk_fault := walk_fault calm;
     rmtree_fault := rmtree_fault calm; rmtree_leaves := rmtree_leaves calm |}.

(** As [calm], but the walk over the repository raises. *)
Definition unwalkable : env :=
  {| clock := clock calm; git := git calm;
     analyze_repository := analyze_repository calm;
     db_fault := db_fault calm;
     walk_fault := fun _ => Some (Exception "[Errno 13] Permission denied");
     rmtree_fault := rmtree_fault calm; rmtree_leaves := rmtree_leaves calm |}.

(** As [calm], but nothing under [keep] can be deleted: a removal
    raises and leaves these entries. *)
Definition undeletable : env :=
  {| clock := clock calm; git := git calm;
     analyze_repository := analyze_repository calm;
     db_fault := db_fault calm; walk_fault := walk_fault calm;
     rmtree_fault := fun _ => Some (Exception "[Errno 13] Permission denied");
     rmtree_leaves := fun _ e =>
                        match parts (rel e) with
                        | "keep" :: _ => true
                        | _ => false
                        end |}.

(** A repository with a directory [keep] between two files. *)
Definition kept_repo : tree :=
  [ Extractor.source_file ["a.py"] "print(1)";
    Extractor.directory ["keep"];
    Extractor.source_file ["keep"; "b.py"] "print(2)";
    Extractor.source_file ["c.py"] "print(3)" ].

(** Nothing on the disk, nothing in the database. *)
Definition blank : world :=
  {| disk := ∅; pipeline_results := []; vulnerability_reports := [];
     ticks := 0; oids := 0; db_calls := 0; removals := [] |}.

(** The repository is on the disk already. *)
Definition checked_out : world :=
  {| disk := {[ "github_repos/demo" := small_repo ]};
     pipeline_results := []; vulnerability_reports := [];
     ticks := 0; oids := 0; db_calls := 0; removals := [] |}.

(** The repository with the directory [keep] is on the disk. *)
Definition kept_checked_out : world :=
  {| disk := {[ "github_repos/demo" := kept_repo ]};
     pipeline_results := []; vulnerability_reports := [];
     ticks := 0; oids := 0; db_calls := 0; removals := [] |}.

(** The records that a first run for (u1, g1, r1) has stored. *)
Definition first_record : document :=
  <["_id" := VOid 0]>
    (PipelineResult.model_dump
       {| PipelineResult.user_id := "u1";
          PipelineResult.github_id := "g1";
          PipelineResult.repo_id := "r1";
          PipelineResult.repo_name := "octo/demo";
          PipelineResult.chunks := [];
          PipelineResult.total_chunks := 0;
          PipelineResult.repo_path := Some "github_repos/demo";
          PipelineResult.created_at := 1700000000;
          PipelineResult.updated_at := 1700000001 |}).

Definition first_report : document :=
  <["_id" := VOid 1]>
    (VulnerabilityReport.model_dump
       (Aggregator.build_report "u1" "g1" "r1" "octo/demo" []
                                1700000002 1700000003 1700000004)).

(** The world after that first run. *)
Definition recorded : world :=
  {| disk := ∅;
     pipeline_results := [first_record];
     vulnerability_reports := [first_report];
     ticks := 5; oids := 2; db_calls := 4;
     removals := ["github_repos/demo"] |}.

End Samples.

Import PyStr Chunker PathFilter Extractor.

(* ===================================================================== *)
(** * Properties of the chunker *)
(* ===================================================================== *)

Section StringFacts.

Example split_empty : split newline "" = [""].
Proof. reflexivity. Qed.

Example chunk_two_lines :
  chunk_code "a.py" ("x = 1" +:+ NL +:+ "y = 2") =
  [ {| file_path := "a.py"; chunk_id := 1; start_line := 1; end_line := 2;
       code_snippet := "### FILE: a.py" +:+ NL +:+ "### LINES: 1-2" +:+ NL +:+
                       "# 1: x = 1" +:+ NL +:+ "# 2: y = 2" |} ].
Proof. vm_compute. reflexivity. Qed.

Lemma length_string_app (a b : string) :
  String.length (a +:+ b) = (String.length a + String.length b)%nat.
Proof. induction a as [|c a IH]; simpl; [done | by rewrite IH]. Qed.

Lemma line_size_len (l : string) : line_size l = len l + 1.
Proof. unfold line_size, len. rewrite length_string_app. simpl. lia. Qed.

Lemma line_size_pos (l : string) : 1 ≤ line_size l.
Proof. rewrite line_size_len. unfold len. lia. Qed.

Lemma split_nonempty (sep : ascii) (s : string) : split sep s ≠ [].
Proof.
  destruct s as [|c s]; simpl; [done|].
  case_decide; [done|]. by destruct (split sep s).
Qed.

Lemma total_size_app (l1 l2 : list string) :
  total_size (l1 ++ l2) = total_size l1 + total_size l2.
Proof. induction l1 as [|x l1 IH]; simpl; lia. Qed.

Lemma total_size_nonneg (l : list string) : 0 ≤ total_size l.
Proof. induction l as [|x l IH]; simpl; [lia|]. pose proof (line_size_pos x). lia. Qed.

(** The sizes the loop adds up are the length of the content plus one:
    the last line is counted with a terminator the content does not
    have. *)
Lemma total_size_split (s : string) :
  total_size (split newline s) = len s + 1.
Proof.
  induction s as [|c s IH]; [reflexivity|].
  simpl split. case_decide.
  - change (total_size ("" :: split newline s))
      with (line_size "" + total_size (split newline s)).
    rewrite IH. change (line_size "") with 1.
    unfold len. cbn [String.length]. lia.
  - destruct (split newline s) as [|p ps] eqn:E.
    + by destruct (split_nonempty newline s).
    + cbn [total_size foldr] in *. rewrite !line_size_len in *.
      unfold len in *. cbn [String.length] in *. lia.
Qed.

End StringFacts.

Section Tiling.

Lemma tiles_app id s cs e c :
  tiles id s cs e →
  chunk_id c = id + Z.of_nat (length cs) →
  start_line c = e → e ≤ end_line c →
  tiles id s (cs ++ [c]) (end_line c + 1).
Proof.
  revert id s. induction cs as [|c0 cs IH]; simpl; intros id s Ht Hid Hs He.
  - subst. simpl in *. repeat split; lia.
  - destruct Ht as (? & ? & ? & Ht). repeat split; try done.
    apply IH; [done | lia | done | done].
Qed.

Lemma tiles_le id s cs e : tiles id s cs e → s ≤ e.
Proof.
  revert id s. induction cs as [|c cs IH]; simpl; intros id s Ht; [lia|].
  destruct Ht as (? & ? & ? & Ht). apply IH in Ht. lia.
Qed.

Lemma tiles_lookup id s cs e k c :
  tiles id s cs e → cs !! k = Some c →
  chunk_id c = id + Z.of_nat k ∧ s ≤ start_line c ∧ start_line c ≤ end_line c
  ∧ end_line c < e.
Proof.
  revert id s k. induction cs as [|c0 cs IH]; intros id s k Ht Hk; [done|].
  destruct Ht as (? & ? & ? & Ht). destruct k as [|k]; simpl in Hk.
  - inversion Hk; subst. apply tiles_le in Ht. lia.
  - destruct (IH _ _ _ Ht Hk) as (? & ? & ? & ?). lia.
Qed.

Lemma tiles_succ id s cs e k c c' :
  tiles id s cs e → cs !! k = Some c → cs !! S k = Some c' →
  start_line c' = end_line c + 1.
Proof.
  revert id s k. induction cs as [|c0 cs IH]; intros id s k Ht Hk Hk'; [done|].
  destruct Ht as (? & ? & ? & Ht). destruct k as [|k]; simpl in *.
  - inversion Hk; subst. destruct cs as [|c1 cs]; [done|].
    inversion Hk'; subst. by destruct Ht as (? & ? & ?).
  - eauto.
Qed.

(** Every line number of the tiled interval lies in some chunk. *)
Lemma tiles_cover id s cs e n :
  tiles id s cs e → s ≤ n < e →
  ∃ k c, cs !! k = Some c ∧ start_line c ≤ n ≤ end_line c.
Proof.
  revert id s. induction cs as [|c0 cs IH]; simpl; intros id s Ht Hn; [lia|].
  destruct Ht as (? & ? & ? & Ht).
  destruct (decide (n ≤ end_line c0)).
  - exists 0%nat, c0. split; [done | lia].
  - destruct (IH _ _ Ht) as (k & c & ? & ?); [lia|].
    by exists (S k), c.
Qed.

(** Chunks further in the sequence lie strictly further in the file. *)
Lemma tiles_ordered id s cs e k k' c c' :
  tiles id s cs e → cs !! k = Some c → cs !! k' = Some c' → (k < k')%nat →
  end_line c < start_line c'.
Proof.
  revert id s k k'. induction cs as [|c0 cs IH]; intros id s k k' Ht Hk Hk' Hlt; [done|].
  destruct Ht as (? & ? & ? & Ht).
  destruct k' as [|k']; [lia|]. destruct k as [|k]; simpl in *.
  - inversion Hk; subst.
    destruct (tiles_lookup _ _ _ _ _ _ Ht Hk') as (? & ? & ? & ?). lia.
  - eapply IH; eauto. lia.
Qed.

(** The line groups of a tiling, one after the other, are the tiled
    slice of the file. *)
Lemma tiles_concat (lines : list string) id s cs e :
  tiles id s cs e → 1 ≤ s →
  concat (map (chunk_lines lines) cs)
  = take (Z.to_nat (e - s)) (drop (Z.to_nat (s - 1)) lines).
Proof.
  revert id s. induction cs as [|c cs IH]; simpl; intros id s Ht Hs.
  - subst. by rewrite Z.sub_diag.
  - destruct Ht as (? & Hst & ? & Ht).
    rewrite (IH _ _ Ht) by lia. unfold chunk_lines. rewrite Hst.
    pose proof (tiles_le _ _ _ _ Ht).
    replace (Z.to_nat (end_line c + 1 - 1))
      with (Z.to_nat (s - 1) + Z.to_nat (end_line c - s + 1))%nat by lia.
    rewrite <- drop_drop.
    replace (Z.to_nat (e - s))
      with (Z.to_nat (end_line c - s + 1) + Z.to_nat (e - (end_line c + 1)))%nat by lia.
    by rewrite take_take_drop.
Qed.

End Tiling.

Section LoopInvariant.

Variable path : string.

Lemma inv_init : inv [] init.
Proof.
  split; simpl; try done.
  - exists []. done.
  - left. unfold CHUNK_SIZE. lia.
Qed.

Lemma chunk_lines_app (l l' : list string) (c : chunk) :
  1 ≤ start_line c → end_line c ≤ Z.of_nat (length l) →
  chunk_lines (l ++ l') c = chunk_lines l c.
Proof.
  intros Hs He. unfold chunk_lines.
  destruct (decide (start_line c ≤ end_line c)) as [Hle|Hgt].
  - rewrite drop_app_le by lia. rewrite take_app_le; [done|].
    rewrite length_drop. lia.
  - replace (Z.to_nat (end_line c - start_line c + 1)) with 0%nat by lia.
    by rewrite !take_0.
Qed.

Lemma chunk_ok_app (done extra : list string) (c : chunk) :
  chunk_ok done c → chunk_ok (done ++ extra) c.
Proof.
  intros (Hs & He & Hb). repeat split; [done | rewrite length_app; lia |].
  unfold chunk_size in *. by rewrite chunk_lines_app.
Qed.

(** The chunk closed from the pending buffer stands for exactly the
    buffered lines. *)
Lemma chunk_lines_make (closed current : list string) (id off : Z) :
  Z.of_nat (length closed) = off - 1 →
  chunk_lines (closed ++ current) (make_chunk path id off current) = current.
Proof.
  intros Hc. unfold chunk_lines. cbn [make_chunk start_line end_line].
  replace (Z.to_nat (off - 1)) with (length closed) by lia.
  rewrite drop_app_length.
  replace (Z.to_nat (off + Z.of_nat (length current) - 1 - off + 1))
    with (length current) by lia.
  apply firstn_all.
Qed.

Lemma inv_flush (done : list string) (st : state) :
  inv done st → current_chunk_lines st ≠ [] → inv done (flush path st) .
Proof.
  intros [Ht Hid Hoff (closed & Hd & Hc) Hsz Hb Hcs] Hne.
  assert (0 < Z.of_nat (length (current_chunk_lines st))) as Hlen.
  { destruct (current_chunk_lines st); [done | simpl; lia]. }
  subst done.
  split; cbn [flush chunks next_chunk_id current_chunk_lines
              current_chunk_size line_offset].
  - apply tiles_app with (e := line_offset st);
      cbn [make_chunk chunk_id start_line end_line];
      [done | lia | done | lia].
  - rewrite length_app. simpl. lia.
  - cbn [make_chunk end_line]. lia.
  - exists (closed ++ current_chunk_lines st). split; [by rewrite app_nil_r|].
    cbn [make_chunk end_line]. rewrite length_app. lia.
  - done.
  - left. unfold CHUNK_SIZE. lia.
  - apply Forall_app. split; [done|]. apply Forall_singleton.
    unfold chunk_ok, chunk_size.
    rewrite chunk_lines_make by done.
    cbn [make_chunk start_line end_line]. rewrite length_app.
    repeat split; [lia | lia |].
    destruct Hb as [Hb|Hb]; [left; by rewrite <- Hsz | right; lia].
Qed.

Lemma inv_step (done : list string) (st : state) (line : string) :
  inv done st → inv (done ++ [line]) (step path st line).
Proof.
  intros Hinv. unfold step.
  destruct (CHUNK_SIZE <? current_chunk_size st + line_size line) eqn:Hover;
    cbn [andb]; [case_bool_decide as Hne|].
  - (* the buffer is closed, the line opens the next one *)
    pose proof (inv_flush _ _ Hinv Hne) as [Ht Hid Hoff (closed & Hd & Hc) Hsz _ Hcs].
    cbn [flush current_chunk_lines current_chunk_size] in *.
    split; cbn [chunks next_chunk_id current_chunk_lines current_chunk_size line_offset].
    + done.
    + done.
    + done.
    + exists closed. split; [rewrite Hd at 1; by rewrite <- app_assoc | done].
    + cbn [app total_size foldr]. lia.
    + by right.
    + eapply Forall_impl; [exact Hcs|]. intros c. apply chunk_ok_app.
  - (* nothing is pending: the line opens the first buffer *)
    destruct Hinv as [Ht Hid Hoff (closed & Hd & Hc) Hsz Hb Hcs].
    rewrite Hne in *.
    split; cbn [chunks next_chunk_id current_chunk_lines current_chunk_size line_offset].
    + done.
    + done.
    + done.
    + exists closed. split; [by rewrite Hd, <- app_assoc | done].
    + cbn [app total_size foldr] in *. lia.
    + by right.
    + eapply Forall_impl; [exact Hcs|]. intros c. apply chunk_ok_app.
  - (* the line fits into the pending buffer *)
    apply Z.ltb_ge in Hover.
    destruct Hinv as [Ht Hid Hoff (closed & Hd & Hc) Hsz Hb Hcs].
    split; cbn [chunks next_chunk_id current_chunk_lines current_chunk_size line_offset].
    + done.
    + done.
    + done.
    + exists closed. split; [by rewrite Hd, <- app_assoc | done].
    + rewrite total_size_app. cbn [total_size foldr]. lia.
    + by left.
    + eapply Forall_impl; [exact Hcs|]. intros c. apply chunk_ok_app.
Qed.

Lemma inv_loop (lines done : list string) (st : state) :
  inv done st → inv (done ++ lines) (loop path lines st).
Proof.
  revert done st. induction lines as [|line lines IH]; intros done st Hinv.
  - by rewrite app_nil_r.
  - cbn [loop fold_left]. replace (done ++ line :: lines)
      with ((done ++ [line]) ++ lines) by (by rewrite <- app_assoc).
    apply IH. by apply inv_step.
Qed.

(** After a line was read the buffer holds it. *)
Lemma step_pending (st : state) (line : string) :
  current_chunk_lines (step path st line) ≠ [].
Proof.
  unfold step. cbn [current_chunk_lines].
  intros H. by apply app_eq_nil in H as [_ ?].
Qed.

Lemma loop_pending (lines : list string) (st : state) :
  lines ≠ [] → current_chunk_lines (loop path lines st) ≠ [].
Proof.
  induction lines as [|x lines _] using List.rev_ind; [done|]. intros _.
  unfold loop. rewrite fold_left_app. apply step_pending.
Qed.

(** The result of [chunk_code]: the state after the last flush. *)
Lemma chunk_code_inv (code : string) :
  ∃ st, chunk_code path code = chunks st
        ∧ inv (file_lines code) st
        ∧ current_chunk_lines st = []
        ∧ line_offset st = line_count code + 1
        ∧ chunks st ≠ [].
Proof.
  pose proof (inv_loop (file_lines code) [] init inv_init) as Hinv.
  rewrite app_nil_l in Hinv.
  set (st := loop path (file_lines code) init) in *.
  assert (current_chunk_lines st ≠ []) as Hne.
  { apply loop_pending, split_nonempty. }
  exists (flush path st). unfold chunk_code, finish. fold (file_lines code). fold st.
  rewrite bool_decide_true by done.
  split; [done|]. split; [by apply inv_flush|]. split; [done|]. split.
  - destruct Hinv as [_ _ _ (closed & Hd & Hc) _ _ _].
    cbn [flush line_offset make_chunk end_line]. unfold line_count.
    apply (f_equal length) in Hd. rewrite length_app in Hd. lia.
  - cbn [flush chunks]. by destruct (chunks st).
Qed.

End LoopInvariant.

Section Adjacency.

Variable path : string.

Lemma adj_init : adj [] init.
Proof. split; simpl; intros; done. Qed.

Lemma chunk_size_app (done extra : list string) (c : chunk) :
  chunk_ok done c → chunk_size (done ++ extra) c = chunk_size done c.
Proof. intros (? & ? & _). unfold chunk_size. by rewrite chunk_lines_app. Qed.

Lemma chunk_size_flush (done : list string) (st : state) :
  inv done st →
  chunk_size done (make_chunk path (next_chunk_id st) (line_offset st)
                              (current_chunk_lines st))
  = current_chunk_size st.
Proof.
  intros [_ _ _ (closed & Hd & Hc) Hsz _ _]. subst done.
  unfold chunk_size. by rewrite chunk_lines_make.
Qed.

(** Closing the buffer keeps neighbours over the bound. *)
Lemma adj_flush (done : list string) (st : state) :
  inv done st → adj done st →
  ∀ k c c', chunks (flush path st) !! k = Some c →
            chunks (flush path st) !! S k = Some c' →
            CHUNK_SIZE < chunk_size done c + chunk_size done c'.
Proof.
  intros Hinv [Hcl Hpe _] k c c' Hk Hk'. cbn [flush chunks] in *.
  destruct (decide (S k < length (chunks st))%nat) as [Hlt|Hge].
  - rewrite lookup_app_l in Hk, Hk' by lia. eauto.
  - assert (length (chunks st) ≤ S k)%nat as Hle by lia.
    rewrite (lookup_app_r _ _ _ Hle) in Hk'.
    apply list_lookup_singleton_Some in Hk' as [Hz <-].
    assert (S k = length (chunks st)) as Hlen by lia.
    rewrite lookup_app_l in Hk by lia.
    rewrite (chunk_size_flush _ _ Hinv). apply Hpe.
    rewrite last_lookup, <- Hlen. done.
Qed.

Lemma adj_grow (done : list string) (line : string) (cs : list chunk) :
  Forall (chunk_ok done) cs →
  (∀ k c c', cs !! k = Some c → cs !! S k = Some c' →
             CHUNK_SIZE < chunk_size done c + chunk_size done c') →
  ∀ k c c', cs !! k = Some c → cs !! S k = Some c' →
            CHUNK_SIZE < chunk_size (done ++ [line]) c
                         + chunk_size (done ++ [line]) c'.
Proof.
  intros Hoks Hcl k c c' Hk Hk'.
  rewrite !chunk_size_app; [eauto | |].
  - eapply Forall_lookup_1; [exact Hoks | exact Hk'].
  - eapply Forall_lookup_1; [exact Hoks | exact Hk].
Qed.

Lemma adj_step (done : list string) (st : state) (line : string) :
  inv done st → adj done st → adj (done ++ [line]) (step path st line).
Proof.
  intros Hinv Hadj. pose proof (line_size_pos line) as Hpos.
  assert (current_chunk_lines (step path st line) ≠ []) as Hfull
    by apply step_pending.
  unfold step in *.
  destruct (CHUNK_SIZE <? current_chunk_size st + line_size line) eqn:Hover;
    cbn [andb] in *; [case_bool_decide as Hne|].
  - (* the buffer is closed *)
    pose proof (inv_flush path _ _ Hinv Hne) as Hinv'.
    pose proof (inv_chunks _ _ Hinv') as Hoks.
    apply Z.ltb_lt in Hover.
    split; cbn [chunks current_chunk_lines current_chunk_size] in *.
    + apply adj_grow; [done|]. by apply adj_flush.
    + intros c Hl. cbn [flush chunks current_chunk_size] in *.
      rewrite last_snoc in Hl. inversion Hl; subst c.
      rewrite chunk_size_app.
      * rewrite (chunk_size_flush _ _ Hinv). lia.
      * eapply Forall_forall in Hoks; [exact Hoks|]. set_solver.
    + done.
  - (* nothing is pending, so nothing was closed yet *)
    pose proof (adj_fresh _ _ Hadj Hne) as Hnil.
    split; cbn [chunks current_chunk_lines current_chunk_size] in *;
      rewrite ?Hnil; done.
  - (* the line joins the pending buffer *)
    destruct Hadj as [Hcl Hpe Hfr]. pose proof (inv_chunks _ _ Hinv) as Hoks.
    split; cbn [chunks current_chunk_lines current_chunk_size] in *.
    + by apply adj_grow.
    + intros c Hl. rewrite chunk_size_app.
      * specialize (Hpe c Hl). lia.
      * eapply Forall_forall in Hoks; [exact Hoks|].
        apply last_Some_elem_of in Hl. done.
    + done.
Qed.

Lemma adj_loop (lines done : list string) (st : state) :
  inv done st → adj done st →
  adj (done ++ lines) (loop path lines st).
Proof.
  revert done st. induction lines as [|line lines IH]; intros done st Hinv Hadj.
  - by rewrite app_nil_r.
  - cbn [loop fold_left]. replace (done ++ line :: lines)
      with ((done ++ [line]) ++ lines) by (by rewrite <- app_assoc).
    apply IH; [by apply inv_step | by apply adj_step].
Qed.

(** Neighbouring chunks of the result together exceed the bound. *)
Lemma chunk_code_adjacent (code : string) (k : nat) (c c' : chunk) :
  chunk_code path code !! k = Some c →
  chunk_code path code !! S k = Some c' →
  CHUNK_SIZE < chunk_size (file_lines code) c + chunk_size (file_lines code) c'.
Proof.
  pose proof (inv_loop path (file_lines code) [] init (inv_init)) as Hinv.
  pose proof (adj_loop (file_lines code) [] init (inv_init) adj_init) as Hadj.
  rewrite app_nil_l in Hinv, Hadj.
  unfold chunk_code, finish. fold (file_lines code).
  rewrite bool_decide_true by apply loop_pending, split_nonempty.
  by apply adj_flush.
Qed.

End Adjacency.

Section ChunkerResults.

Variable path : string.

Lemma chunk_code_tiles (code : string) :
  tiles 1 1 (chunk_code path code) (line_count code + 1).
Proof.
  destruct (chunk_code_inv path code) as (st & -> & Hinv & _ & <- & _).
  apply Hinv.
Qed.

Lemma chunk_code_nonempty (code : string) : chunk_code path code ≠ [].
Proof. by destruct (chunk_code_inv path code) as (st & -> & _ & _ & _ & ?). Qed.

Lemma chunk_code_ok (code : string) :
  Forall (chunk_ok (file_lines code)) (chunk_code path code).
Proof.
  destruct (chunk_code_inv path code) as (st & -> & Hinv & _). apply Hinv.
Qed.

Lemma tiles_partitions (cs : list chunk) (N : Z) :
  tiles 1 1 cs (N + 1) → partitions cs N.
Proof.
  intros Ht. unfold partitions. split_and!.
  - intros k c Hk.
    destruct (tiles_lookup _ _ _ _ _ _ Ht Hk) as (-> & _). lia.
  - intros c Hc. apply list_elem_of_lookup in Hc as (k & Hk).
    destruct (tiles_lookup _ _ _ _ _ _ Ht Hk) as (_ & ? & ? & ?). lia.
  - intros k c c'. by apply tiles_succ with (1 := Ht).
  - intros n Hn. apply tiles_cover with (1 := Ht). lia.
  - intros k k' c c' n Hk Hk' Hn Hn'.
    destruct (Nat.lt_trichotomy k k') as [Hlt | [-> | Hlt]]; [|done|].
    + pose proof (tiles_ordered _ _ _ _ _ _ _ _ Ht Hk Hk' Hlt). lia.
    + pose proof (tiles_ordered _ _ _ _ _ _ _ _ Ht Hk' Hk Hlt). lia.
Qed.

Lemma chunk_code_concat (code : string) :
  concat (map (chunk_lines (file_lines code)) (chunk_code path code))
  = file_lines code.
Proof.
  rewrite (tiles_concat _ _ _ _ _ (chunk_code_tiles code)) by lia.
  unfold line_count. simpl drop.
  replace (Z.to_nat _) with (length (file_lines code)) by lia.
  apply firstn_all.
Qed.

(** A line of the file that a chunk's range contains is one of the
    chunk's lines. *)
Lemma chunk_lines_lookup (lines : list string) (c : chunk) (n : nat) (l : string) :
  lines !! n = Some l → 1 ≤ start_line c →
  start_line c ≤ Z.of_nat n + 1 ≤ end_line c →
  chunk_lines lines c !! (n - Z.to_nat (start_line c - 1))%nat = Some l.
Proof.
  intros Hl Hs Hn. unfold chunk_lines.
  rewrite lookup_take_lt by lia. rewrite lookup_drop.
  by replace (_ + _)%nat with n by lia.
Qed.

Lemma total_size_lookup (ls : list string) (i : nat) (l : string) :
  ls !! i = Some l → line_size l ≤ total_size ls.
Proof.
  revert i. induction ls as [|x ls IH]; intros i Hi; [done|].
  cbn [total_size foldr]. fold (total_size ls).
  pose proof (total_size_nonneg ls). pose proof (line_size_pos x).
  destruct i as [|i]; simpl in Hi.
  - inversion Hi; subst. lia.
  - specialize (IH _ Hi). lia.
Qed.

(** A chunk of one line number stands for that line alone. *)
Lemma chunk_lines_single (lines : list string) (c : chunk) :
  1 ≤ start_line c → start_line c = end_line c →
  end_line c ≤ Z.of_nat (length lines) →
  ∃ l, lines !! Z.to_nat (start_line c - 1) = Some l ∧ chunk_lines lines c = [l].
Proof.
  intros Hs Heq He. unfold chunk_lines. rewrite <- Heq.
  replace (Z.to_nat (start_line c - start_line c + 1)) with 1%nat by lia.
  destruct (lookup_lt_is_Some_2 lines (Z.to_nat (start_line c - 1))) as [l Hl];
    [lia|].
  exists l. split; [done|].
  rewrite (drop_S _ _ _ Hl). by rewrite firstn_cons, take_0.
Qed.

Lemma total_size_concat (ls : list (list string)) :
  total_size (concat ls) = foldr (fun l acc => total_size l + acc) 0 ls.
Proof.
  induction ls as [|l ls IH]; simpl; [done|].
  by rewrite total_size_app, IH.
Qed.

(** The sizes of the chunks add up to the size of the file. *)
Lemma chunk_sizes_sum (code : string) :
  foldr (fun c acc => chunk_size (file_lines code) c + acc) 0
        (chunk_code path code)
  = len code + 1.
Proof.
  rewrite <- total_size_split. fold (file_lines code).
  pose proof (chunk_code_concat code) as Hcat.
  apply (f_equal total_size) in Hcat. rewrite <- Hcat, total_size_concat.
  clear Hcat. generalize (file_lines code). intros lines.
  induction (chunk_code path code) as [|c cs IH]; simpl; [done|].
  by rewrite IH.
Qed.

End ChunkerResults.

Section ChunkerClaims.

Lemma utf8_len_ascii (s : string) : is_ascii s = true → utf8_len s = len s.
Proof.
  unfold len. induction s as [|c s IH]; [done|]. cbn [is_ascii utf8_len String.length].
  intros [Hc Hs]%andb_true_iff. rewrite Hc, (IH Hs). lia.
Qed.

Lemma is_ascii_split (s : string) :
  is_ascii s = true → Forall (fun l => is_ascii l = true) (split newline s).
Proof.
  induction s as [|c s IH]; [by repeat constructor|].
  cbn [is_ascii split]. intros [Hc Hs]%andb_true_iff. specialize (IH Hs).
  case_decide; [by constructor|].
  destruct (split newline s) as [|p ps].
  - constructor; [|constructor]. cbn [is_ascii]. by rewrite Hc.
  - inversion IH; subst. constructor; [|done]. cbn [is_ascii]. by rewrite Hc.
Qed.

Lemma is_ascii_app (a b : string) :
  is_ascii a = true → is_ascii b = true → is_ascii (a +:+ b) = true.
Proof.
  induction a as [|c a IH]; [done|]. simpl.
  intros [Hc Ha]%andb_true_iff Hb. rewrite Hc. by apply IH.
Qed.

Lemma chunk_lines_Forall (P : string → Prop) (lines : list string) (c : chunk) :
  Forall P lines → Forall P (chunk_lines lines c).
Proof. intros H. unfold chunk_lines. by apply Forall_take, Forall_drop. Qed.

(** On ASCII content bytes and characters are the same measure. *)
Lemma chunk_bytes_ascii (code : string) (c : chunk) :
  is_ascii code = true →
  chunk_bytes (file_lines code) c = chunk_size (file_lines code) c.
Proof.
  intros Hascii. unfold chunk_bytes, chunk_size.
  pose proof (is_ascii_split code Hascii) as Hall. fold (file_lines code) in Hall.
  apply (chunk_lines_Forall _ _ c) in Hall.
  induction Hall as [|l ls Hl _ IH]; [done|]. cbn [foldr total_size].
  fold (total_size ls). rewrite IH. unfold line_size.
  rewrite utf8_len_ascii; [done|]. by apply is_ascii_app.
Qed.

(** C1: for every file path and content the chunks of [chunk_code]
    partition the line numbers 1..N of the file, N being its line count:
    no gap and no overlap, chunk identifiers counting 1, 2, 3, ..., and
    each chunk starting on the line after the end of the previous one.
    The lines the chunks stand for, put one after the other, are the lines
    of the file. *)
Theorem chunk_code_partitions_lines (path code : string) :
  partitions (chunk_code path code) (line_count code)
  ∧ concat (map (chunk_lines (file_lines code)) (chunk_code path code))
    = file_lines code.
Proof.
  split.
  - apply tiles_partitions, chunk_code_tiles.
  - apply chunk_code_concat.
Qed.

(** C10: [chunk_code] never returns an empty list; on the empty content
    it returns exactly one chunk, with identifier 1, covering line 1 to
    line 1. *)
Theorem chunk_code_never_empty (path code : string) :
  chunk_code path code ≠ []
  ∧ chunk_code path ""
    = [ {| file_path := path; chunk_id := 1; start_line := 1; end_line := 1;
           code_snippet := ("### FILE: " +:+ path +:+ NL +:+
                            "### LINES: 1-1" +:+ NL) +:+ "# 1: " |} ].
Proof.
  split; [apply chunk_code_nonempty | reflexivity].
Qed.

(** C2, as stated, fails: two lines of 5000 accented letters are 10002
    characters with their terminators and stay in one chunk, which holds
    20002 bytes of UTF-8 and is not a single line. *)
Lemma chunk_bytes_exceed_bound :
  let c := make_chunk "app/models.py" 1 1 (file_lines accented_source) in
  chunk_code "app/models.py" accented_source = [c]
  ∧ start_line c = 1 ∧ end_line c = 2
  ∧ chunk_bytes (file_lines accented_source) c = 20002
  ∧ ¬ (chunk_bytes (file_lines accented_source) c ≤ CHUNK_SIZE).
Proof.
  split_and!; [by vm_compute .. |]. vm_compute. by intros H.
Qed.

(** C2, amended: no chunk of [chunk_code] exceeds [CHUNK_SIZE] in the
    measure the code uses, characters with one terminator per line, unless
    it is a single line that alone exceeds it; a line that alone exceeds it
    is never split and is a chunk of its own; and on ASCII content the
    same bound holds in bytes. *)
Theorem chunk_size_bounded (path code : string) :
  (∀ c, c ∈ chunk_code path code →
        chunk_size (file_lines code) c ≤ CHUNK_SIZE
        ∨ ∃ l, chunk_lines (file_lines code) c = [l]
               ∧ start_line c = end_line c ∧ CHUNK_SIZE < line_size l)
  ∧ (∀ n l, file_lines code !! n = Some l → CHUNK_SIZE < line_size l →
            ∃ c, c ∈ chunk_code path code
                 ∧ start_line c = Z.of_nat n + 1 ∧ end_line c = Z.of_nat n + 1
                 ∧ chunk_lines (file_lines code) c = [l])
  ∧ (is_ascii code = true →
     ∀ c, c ∈ chunk_code path code →
          chunk_bytes (file_lines code) c ≤ CHUNK_SIZE
          ∨ start_line c = end_line c).
Proof.
  pose proof (chunk_code_ok path code) as Hoks.
  pose proof (tiles_partitions _ _ (chunk_code_tiles path code))
    as (_ & Hrange & _ & Hcover & _).
  assert (∀ c, c ∈ chunk_code path code →
               chunk_size (file_lines code) c ≤ CHUNK_SIZE
               ∨ ∃ l, chunk_lines (file_lines code) c = [l]
                      ∧ start_line c = end_line c ∧ CHUNK_SIZE < line_size l)
    as Hbound.
  { intros c Hc. eapply Forall_forall in Hoks as (Hs & He & Hb); [|exact Hc].
    destruct (decide (chunk_size (file_lines code) c ≤ CHUNK_SIZE)) as [|Hbig];
      [by left|].
    destruct Hb as [|Heq]; [done|]. right.
    destruct (chunk_lines_single _ _ Hs Heq He) as (l & _ & Hl).
    exists l. split_and!; [done | done |].
    unfold chunk_size in Hbig. rewrite Hl in Hbig.
    cbn [total_size foldr] in Hbig. lia. }
  split_and!; [exact Hbound | |].
  - intros n l Hl Hbig.
    destruct (Hcover (Z.of_nat n + 1)) as (k & c & Hk & Hn).
    { apply lookup_lt_Some in Hl. unfold line_count. lia. }
    assert (c ∈ chunk_code path code) as Hc by (by eapply list_elem_of_lookup_2).
    destruct (Hrange c Hc) as (Hs & _ & He).
    pose proof (chunk_lines_lookup _ _ _ _ Hl Hs Hn) as Hin.
    apply total_size_lookup in Hin. fold (chunk_size (file_lines code) c) in Hin.
    destruct (Hbound c Hc) as [|(l' & Hl' & Heq & _)]; [lia|].
    exists c. split_and!; [done | lia | lia |].
    pose proof (chunk_lines_lookup _ _ _ _ Hl Hs Hn) as Hin'.
    rewrite Hl' in Hin'. replace (_ - _)%nat with 0%nat in Hin' by lia.
    simpl in Hin'. inversion Hin'; subst l'. exact Hl'.
  - intros Hascii c Hc. rewrite chunk_bytes_ascii by done.
    destruct (Hbound c Hc) as [|(l & _ & ? & _)]; [by left | by right].
Qed.

(** C2 at a file with a line of 12001 letters between two short ones:
    the long line is chunk 2, alone; the other chunks respect the bound,
    in characters and, the file being ASCII, in bytes. *)
Lemma chunk_size_bounded_witness :
  let lines := file_lines one_long_line in
  let c1 := make_chunk "a.py" 1 1 ["x"] in
  (chunk_size lines c1 ≤ CHUNK_SIZE
   ∨ ∃ l, chunk_lines lines c1 = [l]
          ∧ start_line c1 = end_line c1 ∧ CHUNK_SIZE < line_size l)
  ∧ (∃ c, c ∈ chunk_code "a.py" one_long_line
          ∧ start_line c = 2 ∧ end_line c = 2
          ∧ chunk_lines lines c = [times "y" 12001])
  ∧ (chunk_bytes lines c1 ≤ CHUNK_SIZE ∨ start_line c1 = end_line c1).
Proof.
  intros lines c1.
  destruct (chunk_size_bounded "a.py" one_long_line) as (Hbound & Hline & Hbytes).
  assert (c1 ∈ chunk_code "a.py" one_long_line) as Hc1.
  { apply (bool_decide_unpack _). by vm_compute. }
  split_and!.
  - apply (Hbound c1 Hc1).
  - apply (Hline 1%nat (times "y" 12001)); by vm_compute.
  - apply (Hbytes ltac:(by vm_compute) c1 Hc1).
Defined.

(** Every chunk of a file whose lines have at most [CHUNK_SIZE]
    characters holds at most [CHUNK_SIZE + 1] of them, terminators
    counted. *)
Lemma chunk_size_short_lines (path code : string) (c : chunk) :
  Forall (fun l => len l ≤ CHUNK_SIZE) (file_lines code) →
  c ∈ chunk_code path code →
  0 ≤ chunk_size (file_lines code) c ≤ CHUNK_SIZE + 1.
Proof.
  intros Hshort Hc. split; [apply total_size_nonneg|].
  pose proof (chunk_code_ok path code) as Hoks.
  eapply Forall_forall in Hoks; [|exact Hc].
  destruct Hoks as (Hs & He & [Hb|Heq]); [lia|].
  destruct (chunk_lines_single _ _ Hs Heq He) as (l & Hl & Hcl).
  unfold chunk_size. rewrite Hcl. cbn [total_size foldr].
  eapply Forall_lookup_1 in Hshort; [|exact Hl]. cbn beta in Hshort.
  rewrite line_size_len. lia.
Qed.

(** C3, as stated, fails: a file of 25000 characters, four lines of 6000
    and one of 996, yields four chunks, because no two of the long lines
    fit one chunk together. *)
Lemma four_chunks_from_25000 :
  len four_long_lines = 25000
  ∧ Forall (fun l => len l ≤ CHUNK_SIZE) (file_lines four_long_lines)
  ∧ is_ascii four_long_lines = true
  ∧ length (chunk_code "src/big.py" four_long_lines) = 4%nat
  ∧ map (fun c => (start_line c, end_line c))
        (chunk_code "src/big.py" four_long_lines)
    = [(1, 1); (2, 2); (3, 3); (4, 5)].
Proof.
  split_and!; try by vm_compute.
  apply (bool_decide_unpack _). by vm_compute.
Qed.

(** C3, amended: a file of 25000 characters none of whose lines exceeds
    12000 yields at least three and at most five chunks, and their line
    ranges are contiguous, do not overlap and cover the file's lines. *)
Theorem chunk_count_25000 (path code : string) :
  len code = 25000 →
  Forall (fun l => len l ≤ CHUNK_SIZE) (file_lines code) →
  (3 ≤ length (chunk_code path code) ≤ 5)%nat
  ∧ partitions (chunk_code path code) (line_count code).
Proof.
  intros Hlen Hshort. split; [|apply tiles_partitions, chunk_code_tiles].
  pose proof (chunk_sizes_sum path code) as Hsum. rewrite Hlen in Hsum.
  pose proof (chunk_size_short_lines path code) as Hmax.
  pose proof (chunk_code_adjacent path code) as Hadj.
  set (sz := chunk_size (file_lines code)) in *.
  assert (∀ cs, 0 ≤ foldr (fun c acc => sz c + acc) 0 cs) as Hnonneg.
  { induction cs as [|c cs IH]; simpl; [lia|].
    pose proof (total_size_nonneg (chunk_lines (file_lines code) c)) as Hc.
    change (0 ≤ sz c) in Hc. lia. }
  unfold CHUNK_SIZE in *.
  destruct (chunk_code path code) as [|c1 [|c2 [|c3 [|c4 [|c5 [|c6 cs]]]]]];
    cbn [foldr length] in *.
  - lia.
  - pose proof (Hmax c1 Hshort (list_elem_of_here _ _)). lia.
  - pose proof (Hmax c1 Hshort (list_elem_of_here _ _)).
    pose proof (Hmax c2 Hshort (list_elem_of_further _ _ _ (list_elem_of_here _ _))).
    lia.
  - lia.
  - lia.
  - lia.
  - exfalso.
    pose proof (Hadj 0%nat c1 c2 eq_refl eq_refl).
    pose proof (Hadj 2%nat c3 c4 eq_refl eq_refl).
    pose proof (Hadj 4%nat c5 c6 eq_refl eq_refl).
    specialize (Hnonneg cs). lia.
Qed.

(** The bounds of C3 at the file of four long lines. *)
Lemma chunk_count_25000_witness :
  (3 ≤ length (chunk_code "src/big.py" four_long_lines) ≤ 5)%nat
  ∧ partitions (chunk_code "src/big.py" four_long_lines)
               (line_count four_long_lines).
Proof.
  apply (chunk_count_25000 "src/big.py" four_long_lines).
  - by vm_compute.
  - apply (bool_decide_unpack _). by vm_compute.
Defined.

(** Both bounds of the amended C3 are attained. *)
Example chunk_count_bounds_attained :
  len many_short_lines = 25000 ∧ len alternating_lines = 25000
  ∧ length (chunk_code "a.py" many_short_lines) = 3%nat
  ∧ length (chunk_code "a.py" alternating_lines) = 5%nat.
Proof. by vm_compute. Qed.

End ChunkerClaims.

(* ===================================================================== *)
(** * Properties of the path filter *)
(* ===================================================================== *)

Section PathFilterFacts.

Example keeps_source_file :
  should_exclude_path {| parts := ["src"; "app"; "Main.PY"] |} = false.
Proof. by vm_compute. Qed.

Example keeps_hidden_source_file :
  should_exclude_path {| parts := ["web"; ".eslintrc.js"] |} = false.
Proof. by vm_compute. Qed.

Example drops_hidden_directory :
  should_exclude_path {| parts := [".circleci"; "run.sh"] |} = true.
Proof. by vm_compute. Qed.

Example drops_excluded_directory :
  should_exclude_path {| parts := ["Node_Modules"; "left-pad"; "index.js"] |}
  = true.
Proof. by vm_compute. Qed.

Example drops_setup_py :
  should_exclude_path {| parts := ["setup.py"] |} = true.
Proof. by vm_compute. Qed.

Lemma rfind_contains (c : ascii) (s : string) :
  0 ≤ rfind c s → contains c s = true.
Proof.
  induction s as [|d s IH]; cbn [rfind contains]; [lia|].
  destruct (0 <=? rfind c s) eqn:E.
  - intros _. rewrite IH by lia. apply orb_true_r.
  - case_decide as Hd; [|lia]. intros _. subst d.
    by rewrite bool_decide_true.
Qed.

(** A name with a suffix has a dot after its first character. *)
Lemma suffix_inner_dot (p : Path) :
  nonempty (suffix p) = true → inner_dot (name p) = true.
Proof.
  unfold suffix. destruct (_ && _) eqn:E; [|done]. intros _.
  apply andb_true_iff in E as [Hi _]. apply Z.ltb_lt in Hi.
  destruct (name p) as [|c s]; [by cbn in Hi|].
  cbn [rfind] in Hi. cbn [inner_dot]. apply rfind_contains.
  destruct (0 <=? rfind dot s) eqn:E; [lia|]. case_decide; lia.
Qed.

Lemma lower_char_dot (c : ascii) : lower_char c = dot ↔ c = dot.
Proof.
  destruct c as [[] [] [] [] [] [] [] []]; vm_compute; split; congruence.
Qed.

Lemma contains_dot_lower (s : string) :
  contains dot (lower s) = contains dot s.
Proof.
  induction s as [|c s IH]; [done|]. cbn [lower contains]. rewrite IH.
  f_equal. apply bool_decide_ext. split; intros H.
  - symmetry. apply lower_char_dot. done.
  - symmetry. apply lower_char_dot. done.
Qed.

Lemma inner_dot_lower (s : string) : inner_dot (lower s) = inner_dot s.
Proof. destruct s as [|c s]; [done|]. apply contains_dot_lower. Qed.

(** No excluded directory name has a dot after its first character, so
    none of them has a suffix. *)
Lemma excluded_dirs_no_inner_dot (d : string) :
  d ∈ EXCLUDED_DIRS → inner_dot d = false.
Proof.
  unfold EXCLUDED_DIRS. rewrite elem_of_list_to_set. revert d.
  apply Forall_forall. apply (bool_decide_unpack _). by vm_compute.
Qed.

Lemma parts_loop_excluded (path : Path) (ps : list string) (part : string) :
  part ∈ ps → lower part ∈ EXCLUDED_DIRS → parts_loop path ps = true.
Proof.
  intros Hin Hex. induction Hin as [part ps | part other ps Hin IH].
  - cbn [parts_loop]. unfold mem at 2 3. rewrite (bool_decide_true _ Hex).
    destruct (_ && _ && _); [|done].
    destruct (String.eqb part (name path) && nonempty (suffix path)) eqn:E;
      [|done].
    apply andb_true_iff in E as [Hname Hsuf]. apply String.eqb_eq in Hname.
    apply suffix_inner_dot in Hsuf. rewrite <- Hname in Hsuf.
    apply excluded_dirs_no_inner_dot in Hex. rewrite inner_dot_lower in Hex.
    congruence.
  - cbn [parts_loop]. rewrite (IH Hex).
    repeat match goal with |- context [if ?b then _ else _] => destruct b end;
      done.
Qed.

(** C8: a relative path with a segment whose lower-case form is one of
    [EXCLUDED_DIRS] is excluded whatever its base name and extension are:
    the loop over the parts already returns [True], before the checks on
    the file name and the extension. *)
Theorem excluded_directory_short_circuits (path : Path) (part : string) :
  part ∈ parts path → lower part ∈ EXCLUDED_DIRS →
  parts_loop path (parts path) = true ∧ should_exclude_path path = true.
Proof.
  intros Hin Hex. pose proof (parts_loop_excluded path _ _ Hin Hex) as Hloop.
  split; [done|]. unfold should_exclude_path. by rewrite Hloop.
Qed.

(** C8 at a source file inside [Vendor/]. *)
Lemma excluded_directory_short_circuits_witness :
  let path := {| parts := ["pkg"; "Vendor"; "crypto.go"] |} in
  parts_loop path (parts path) = true ∧ should_exclude_path path = true.
Proof.
  apply (excluded_directory_short_circuits _ "Vendor").
  - apply (bool_decide_unpack _). by vm_compute.
  - apply (bool_decide_unpack _). by vm_compute.
Defined.

End PathFilterFacts.

(* ===================================================================== *)
(** * Properties of the extractor *)
(* ===================================================================== *)

Section ExtractorFacts.

Lemma dict_get_set_eq (k v : string) (d : list (string * string)) :
  dict_get k (dict_set k v d) = Some v.
Proof.
  induction d as [|[k' v'] d IH]; cbn [dict_set dict_get].
  - by rewrite String.eqb_refl.
  - destruct (String.eqb k' k) eqn:E; cbn [dict_get]; by rewrite E.
Qed.

Lemma dict_get_set_ne (k k' v : string) (d : list (string * string)) :
  k ≠ k' → dict_get k' (dict_set k v d) = dict_get k' d.
Proof.
  intros Hne. induction d as [|[k0 v0] d IH]; cbn [dict_set dict_get].
  - by rewrite (proj2 (String.eqb_neq k k')).
  - destruct (String.eqb k0 k) eqn:E; cbn [dict_get].
    + apply String.eqb_eq in E. subst k0.
      by rewrite (proj2 (String.eqb_neq k k')).
    + by rewrite IH.
Qed.

(** One iteration stores the content of an entry that is kept and leaves
    the dictionary alone otherwise. *)
Lemma visit_kept (d : list (string * string)) (e : entry) :
  visit d e = match kept e with
              | Some content => dict_set (to_str (rel e)) content d
              | None => d
              end.
Proof.
  unfold visit, kept. destruct (kind e) as [[content|err]|]; [| |done].
  - destruct (should_exclude_path (rel e)); [done|].
    assert ((if nonempty (suffix (rel e)) then lower (suffix (rel e)) else "")
            = lower (suffix (rel e))) as ->.
    { by destruct (suffix (rel e)). }
    destruct (negb _); [done|]. by destruct (looks_binary content).
  - destruct (should_exclude_path (rel e)); [done|]. by destruct (negb _).
Qed.

Lemma dict_get_visit_ne (d : list (string * string)) (e : entry) (k : string) :
  to_str (rel e) ≠ k → dict_get k (visit d e) = dict_get k d.
Proof.
  intros Hne. rewrite visit_kept. destruct (kept e); [|done].
  by apply dict_get_set_ne.
Qed.

Lemma dict_get_visit_eq (d : list (string * string)) (e : entry) :
  dict_get (to_str (rel e)) (visit d e)
  = match kept e with
    | Some content => Some content
    | None => dict_get (to_str (rel e)) d
    end.
Proof.
  rewrite visit_kept. destruct (kept e); [|done]. apply dict_get_set_eq.
Qed.

Lemma dict_get_fold_other (entries : tree) (d : list (string * string))
      (k : string) :
  k ∉ map (fun e => to_str (rel e)) entries →
  dict_get k (fold_left visit entries d) = dict_get k d.
Proof.
  revert d. induction entries as [|e es IH]; intros d Hk; [done|].
  cbn [fold_left]. cbn [map] in Hk. apply not_elem_of_cons in Hk as [Hne Hk].
  rewrite IH by done. by apply dict_get_visit_ne.
Qed.

Lemma dict_get_fold (entries : tree) (d : list (string * string)) (e : entry) :
  NoDup (map (fun e => to_str (rel e)) entries) → e ∈ entries →
  dict_get (to_str (rel e)) (fold_left visit entries d)
  = match kept e with
    | Some content => Some content
    | None => dict_get (to_str (rel e)) d
    end.
Proof.
  revert d. induction entries as [|e0 es IH]; intros d Hnd Hin.
  - by apply elem_of_nil in Hin.
  - cbn [map] in Hnd. apply NoDup_cons in Hnd as [Hfresh Hnd].
    cbn [fold_left]. apply elem_of_cons in Hin as [->|Hin].
    + rewrite dict_get_fold_other by done. apply dict_get_visit_eq.
    + rewrite IH by done. destruct (kept e); [done|].
      apply dict_get_visit_ne. intros Heq. apply Hfresh. rewrite Heq.
      by apply (list_elem_of_fmap_2 (fun e => to_str (rel e))).
Qed.



(** One unreadable file among ten: the other nine are returned. *)
Example nine_of_ten_files :
  ∃ source_files,
    extract_source_code sample_disk "github_repos/demo" = inr source_files
    ∧ length source_files = 9%nat
    ∧ dict_get "api/tokens.py" source_files = None
    ∧ dict_get "api/Routes.JS" source_files = Some "export default []".
Proof. eexists. split; [by vm_compute|]. by vm_compute. Qed.

End ExtractorFacts.

(* ===================================================================== *)
(** * Properties of the aggregation *)
(* ===================================================================== *)

Section AggregatorFacts.

Import Aggregator.

Lemma sum_ones {A} (l : list A) : sum (map (fun _ => 1) l) = llen l.
Proof.
  unfold llen. induction l as [|x l IH]; [done|].
  cbn [map sum foldr length]. fold (sum (map (fun _ : A => 1) l)). lia.
Qed.

Lemma count_severity_filter (name : string) (vs : list Vulnerability.t) :
  count_severity name vs = with_severity name vs.
Proof. apply sum_ones. Qed.

Lemma count_nested_filter (name : string)
      (scan_results : list VulnerabilityScanResult.t) :
  count_nested name scan_results = with_severity name (findings scan_results).
Proof. apply sum_ones. Qed.

Lemma all_vulnerabilities_findings (scan_results : list VulnerabilityScanResult.t) :
  all_vulnerabilities scan_results = findings scan_results.
Proof.
  unfold all_vulnerabilities, findings.
  assert (∀ acc, fold_left (fun acc r => acc ++ VulnerabilityScanResult.vulnerabilities r)
                           scan_results acc
                 = acc ++ (r ← scan_results; VulnerabilityScanResult.vulnerabilities r))
    as H; [|apply H].
  induction scan_results as [|r rs IH]; intros acc; cbn [fold_left].
  - by rewrite app_nil_r.
  - rewrite IH. cbn. by rewrite app_assoc.
Qed.

Lemma total_findings (scan_results : list VulnerabilityScanResult.t) :
  sum (map (fun r => llen (VulnerabilityScanResult.vulnerabilities r))
           scan_results)
  = llen (findings scan_results).
Proof.
  unfold findings, llen. induction scan_results as [|r rs IH]; [done|].
  cbn [map sum foldr]. cbn. rewrite length_app.
  unfold sum in IH. rewrite IH. lia.
Qed.

(** The five counters together count the findings with one of the five
    names. *)
Lemma five_counters (vs : list Vulnerability.t) :
  with_severity "Critical" vs + with_severity "High" vs
  + with_severity "Medium" vs + with_severity "Low" vs + with_severity "Info" vs
  = llen (filter known_severity vs).
Proof.
  unfold with_severity, llen, known_severity, severity_names.
  induction vs as [|v vs IH]; [done|].
  rewrite !filter_cons.
  repeat case_decide; cbn [length]; try lia;
    repeat match goal with
           | H : _ ∈ _ :: _ |- _ => apply elem_of_cons in H as [H|H]
           | H : _ ∈ [] |- _ => by apply elem_of_nil in H
           | H : ¬ (_ ∈ _) |- _ => exfalso; apply H; set_solver
           end; congruence.
Qed.

Lemma filter_known_all (vs : list Vulnerability.t) :
  Forall known_severity vs → filter known_severity vs = vs.
Proof.
  induction 1 as [|v vs Hv _ IH]; [done|].
  rewrite filter_cons. rewrite decide_True by done. by rewrite IH.
Qed.

(** C4, as stated, fails: a finding whose severity is written "critical"
    is counted in the total and in none of the five counters, in the
    summary that [run_pipeline] returns and in the report that
    [save_vulnerability_report] stores. *)
Lemma counts_miss_lowercase_severity :
  let summary := summarize [lowercase_scan] in
  let stored := build_report "u1" "g1" "r1" "octo/demo" [lowercase_scan] 0 0 0 in
  total_vulnerabilities summary = 1 ∧ breakdown_sum (breakdown summary) = 0
  ∧ VulnerabilityReport.total_vulnerabilities stored = 1 ∧ counts_sum stored = 0.
Proof. by vm_compute. Qed.

(** C4, amended: in the summary and in the stored report the total is the
    number of all findings of all scan results, each of the five counters
    is the number of findings with exactly that severity name (zero when
    there is none), the five counters together count the findings whose
    severity is one of the five names, which never exceeds the total, and
    they sum to the total when every finding has one of the five names. *)
Theorem severity_counts_sum
        (user_id github_id repo_id repo_name : string)
        (scan_results : list VulnerabilityScanResult.t)
        (completed created updated : Z) :
  let vs := findings scan_results in
  let summary := summarize scan_results in
  let stored := build_report user_id github_id repo_id repo_name scan_results
                             completed created updated in
  (total_vulnerabilities summary = llen vs
   ∧ VulnerabilityReport.total_vulnerabilities stored = llen vs)
  ∧ (breakdown summary
     = {| critical := with_severity "Critical" vs;
          high := with_severity "High" vs;
          medium := with_severity "Medium" vs;
          low := with_severity "Low" vs;
          info := with_severity "Info" vs |}
     ∧ VulnerabilityReport.critical_count stored = with_severity "Critical" vs
     ∧ VulnerabilityReport.high_count stored = with_severity "High" vs
     ∧ VulnerabilityReport.medium_count stored = with_severity "Medium" vs
     ∧ VulnerabilityReport.low_count stored = with_severity "Low" vs
     ∧ VulnerabilityReport.info_count stored = with_severity "Info" vs)
  ∧ (breakdown_sum (breakdown summary) = llen (filter known_severity vs)
     ∧ counts_sum stored = llen (filter known_severity vs)
     ∧ llen (filter known_severity vs) ≤ llen vs)
  ∧ (Forall known_severity vs →
     breakdown_sum (breakdown summary) = total_vulnerabilities summary
     ∧ counts_sum stored = VulnerabilityReport.total_vulnerabilities stored).
Proof.
  intros vs summary stored.
  assert (total_vulnerabilities summary = llen vs) as Htot
    by apply total_findings.
  assert (VulnerabilityReport.total_vulnerabilities stored = llen vs) as Htot'.
  { cbn. by rewrite all_vulnerabilities_findings. }
  assert (breakdown_sum (breakdown summary) = llen (filter known_severity vs))
    as Hsum.
  { unfold breakdown_sum. cbn. rewrite !count_nested_filter. apply five_counters. }
  assert (counts_sum stored = llen (filter known_severity vs)) as Hsum'.
  { unfold counts_sum. cbn. rewrite !count_severity_filter.
    rewrite all_vulnerabilities_findings. apply five_counters. }
  split_and!; try done.
  - cbn. by rewrite !count_nested_filter.
  - cbn. by rewrite count_severity_filter, all_vulnerabilities_findings.
  - cbn. by rewrite count_severity_filter, all_vulnerabilities_findings.
  - cbn. by rewrite count_severity_filter, all_vulnerabilities_findings.
  - cbn. by rewrite count_severity_filter, all_vulnerabilities_findings.
  - cbn. by rewrite count_severity_filter, all_vulnerabilities_findings.
  - unfold llen. pose proof (length_filter known_severity vs). lia.
  - intros Hall. rewrite Hsum, Hsum', Htot, Htot'.
    by rewrite filter_known_all.
Qed.

(** C4 at a scan with one critical and two low findings. *)
Lemma severity_counts_sum_witness :
  let summary := summarize [graded_scan] in
  let stored := build_report "u1" "g1" "r1" "octo/demo" [graded_scan] 1 2 3 in
  breakdown_sum (breakdown summary) = total_vulnerabilities summary
  ∧ counts_sum stored = VulnerabilityReport.total_vulnerabilities stored.
Proof.
  apply (severity_counts_sum "u1" "g1" "r1" "octo/demo" [graded_scan] 1 2 3).
  apply (bool_decide_unpack _). by vm_compute.
Defined.

End AggregatorFacts.

(* ===================================================================== *)
(** * Properties of the store *)
(* ===================================================================== *)

Section StoreFacts.

Import Store.
Context (E : env).

Lemma bind_inr {A B} (m : M A) (k : A → M B) (w w' : world) (a : A) :
  m w = (inr a, w') → (x ← m; k x) w = k a w'.
Proof. intros H. unfold mbind, M_bind. by rewrite H. Qed.

Lemma bind_inl {A B} (m : M A) (k : A → M B) (w w' : world) (e : exn) :
  m w = (inl e, w') → (x ← m; k x) w = (inl e, w').
Proof. intros H. unfold mbind, M_bind. by rewrite H. Qed.

Lemma matches_id (id : value) (doc : document) :
  matches {[ "_id" := id ]} doc = true ↔ doc !! "_id" = Some id.
Proof.
  unfold matches. rewrite bool_decide_eq_true, map_Forall_singleton. done.
Qed.

(** With identifiers that are unique in the collection, [$set] by
    identifier changes the document that carries it and no other. *)
Lemma set_first_unique (docs : list document) (i : nat)
      (existing data : document) (id : value) :
  docs !! i = Some existing → existing !! "_id" = Some id →
  NoDup (map (fun d : document => d !! "_id") docs) →
  set_first {[ "_id" := id ]} data docs = <[i := data ∪ existing]> docs.
Proof.
  revert i. induction docs as [|d docs IH]; intros i Hi Hid Hnd; [done|].
  cbn [map] in Hnd. apply NoDup_cons in Hnd as [Hfresh Hnd].
  cbn [set_first]. destruct i as [|i]; cbn in Hi.
  - inversion Hi; subst d. by rewrite (proj2 (matches_id id existing) Hid).
  - destruct (matches {[ "_id" := id ]} d) eqn:Hm.
    + exfalso. apply Hfresh. apply matches_id in Hm. rewrite Hm, <- Hid.
      apply (list_elem_of_fmap_2 (fun d : document => d !! "_id")).
      by eapply list_elem_of_lookup_2.
    + cbn. by rewrite (IH i).
Qed.

(** The run of the [if existing:] branch when the database obeys. *)
Lemma update_existing_run (c : collection) (w : world) (i : nat)
      (existing dumped : document) (id : value) :
  get_collection c w !! i = Some existing →
  existing !! "_id" = Some id →
  NoDup (map (fun d : document => d !! "_id") (get_collection c w)) →
  db_fault E (db_calls w) = None →
  update_existing E c existing dumped w
  = (inr id,
     set_collection c
       (<[i := update_data existing dumped (clock E (ticks w))
                            (clock E (S (ticks w))) ∪ existing]>
          (get_collection c w))
       (set_db_calls (S (db_calls w)) (set_ticks (S (S (ticks w))) w))).
Proof.
  intros Hi Hid Hnd Hdb.
  unfold update_existing, get_id, update_one, db_operation, now.
  rewrite Hid. unfold mbind, M_bind, mret, M_ret. cbn.
  rewrite Hdb.
  replace (get_collection c (set_db_calls _ _)) with (get_collection c w)
    by (by destruct c).
  rewrite (set_first_unique _ i existing _ id) by done.
  unfold update_data. by destruct c.
Qed.

Lemma find_one_run (c : collection) (query : document) (w : world) :
  db_fault E (db_calls w) = None →
  find_one E c query w
  = (inr (snd <$> list_find (fun doc => matches query doc = true)
                            (get_collection c w)),
     set_db_calls (S (db_calls w)) w).
Proof.
  intros Hdb. unfold find_one, db_operation. rewrite Hdb.
  by replace (get_collection c (set_db_calls _ _)) with (get_collection c w)
    by (by destruct c).
Qed.

(** A field that the dumped model has is overwritten, the two timestamps
    apart. *)
Lemma update_data_overwrites (existing dumped : document) (fallback updated : Z)
      (k : string) (v : value) :
  dumped !! k = Some v → k ≠ "created_at" → k ≠ "updated_at" →
  (update_data existing dumped fallback updated ∪ existing) !! k = Some v.
Proof.
  intros Hk Hc Hu. apply lookup_union_Some_l. unfold update_data.
  by rewrite !lookup_insert_ne.
Qed.

Lemma update_data_created (existing dumped : document) (fallback updated : Z)
      (created : value) :
  existing !! "created_at" = Some created →
  (update_data existing dumped fallback updated ∪ existing) !! "created_at"
  = Some created.
Proof.
  intros Hc. apply lookup_union_Some_l. unfold update_data.
  rewrite lookup_insert_ne by done. rewrite lookup_insert_eq. by rewrite Hc.
Qed.

Lemma update_data_updated (existing dumped : document) (fallback updated : Z) :
  (update_data existing dumped fallback updated ∪ existing) !! "updated_at"
  = Some (VTime updated).
Proof.
  apply lookup_union_Some_l. unfold update_data. by rewrite lookup_insert_eq.
Qed.

Lemma update_data_id (existing dumped : document) (fallback updated : Z)
      (id : value) :
  dumped !! "_id" = None → existing !! "_id" = Some id →
  (update_data existing dumped fallback updated ∪ existing) !! "_id" = Some id.
Proof.
  intros Hd Hid. rewrite lookup_union_r; [done|]. unfold update_data.
  by rewrite !lookup_insert_ne.
Qed.


End StoreFacts.


(* ===================================================================== *)
(** * Properties of the orchestrator *)
(* ===================================================================== *)

Section PipelineFacts.

Import Pipeline.
Context (E : env).

(** ** Computations that leave the disk alone *)

Lemma frames_ret {A} (a : A) : frames (mret a : M A).
Proof. by intros w. Qed.

Lemma frames_raise {A} (e : exn) : frames (raise e : M A).
Proof. by intros w. Qed.

Lemma frames_bind {A B} (m : M A) (k : A → M B) :
  frames m → (∀ a, frames (k a)) → frames (x ← m; k x).
Proof.
  intros Hm Hk w. unfold mbind, M_bind. specialize (Hm w).
  destruct (m w) as [[e|a] w1]; cbn in *; [done|].
  destruct (Hk a w1) as [-> ->]. done.
Qed.

Lemma frames_try_except {A} (body : M A) (handler : exn → M A) :
  frames body → (∀ e, frames (handler e)) → frames (try_except body handler).
Proof.
  intros Hb Hh w. unfold try_except. specialize (Hb w).
  destruct (body w) as [[e|a] w1]; cbn in *; [|done].
  destruct (Hh e w1) as [-> ->]. done.
Qed.

Lemma frames_now : frames (Store.now E).
Proof. by intros w. Qed.

Lemma frames_db_operation {A} (op : world → A * world) :
  (∀ w, disk (snd (op w)) = disk w ∧ removals (snd (op w)) = removals w) →
  frames (Store.db_operation E op).
Proof.
  intros Hop w. unfold Store.db_operation.
  destruct (db_fault E (db_calls w)); [done|].
  specialize (Hop (set_db_calls (S (db_calls w)) w)).
  by destruct (op _) as [a w2].
Qed.

Lemma frames_find_one (c : collection) (query : document) :
  frames (Store.find_one E c query).
Proof. by apply frames_db_operation. Qed.

Lemma frames_update_one (c : collection) (query data : document) :
  frames (Store.update_one E c query data).
Proof. apply frames_db_operation. intros w. by destruct c. Qed.

Lemma frames_insert_one (c : collection) (doc : document) :
  frames (Store.insert_one E c doc).
Proof. apply frames_db_operation. intros w. by destruct c. Qed.

Lemma frames_get_id (existing : document) : frames (Store.get_id existing).
Proof. unfold Store.get_id. by destruct (existing !! "_id"). Qed.

Lemma frames_update_existing (c : collection) (existing dumped : document) :
  frames (Store.update_existing E c existing dumped).
Proof.
  unfold Store.update_existing.
  repeat (apply frames_bind; [|intros ?]);
    auto using frames_now, frames_get_id, frames_update_one.
Qed.

Lemma frames_save_pipeline_result (user_id github_id repo_id repo_name : string)
      (cs : list chunk) (repo_path : option string) :
  frames (Store.save_pipeline_result E user_id github_id repo_id repo_name
                                     cs repo_path).
Proof.
  unfold Store.save_pipeline_result.
  apply frames_bind; [apply frames_find_one|]. intros existing.
  apply frames_bind; [apply frames_now|]. intros created.
  apply frames_bind; [apply frames_now|]. intros updated.
  destruct existing; [apply frames_update_existing | apply frames_insert_one].
Qed.

Lemma frames_save_vulnerability_report
      (user_id github_id repo_id repo_name : string)
      (scan_results : list VulnerabilityScanResult.t) :
  frames (Store.save_vulnerability_report E user_id github_id repo_id repo_name
                                          scan_results).
Proof.
  unfold Store.save_vulnerability_report.
  apply frames_bind; [apply frames_now|]. intros completed.
  apply frames_bind; [apply frames_now|]. intros created.
  apply frames_bind; [apply frames_now|]. intros updated.
  apply frames_bind; [apply frames_find_one|]. intros existing.
  destruct existing; [apply frames_update_existing | apply frames_insert_one].
Qed.

Lemma frames_process_repository (path : string) :
  frames (process_repository E path).
Proof.
  unfold process_repository. apply frames_bind.
  - intros w. unfold extract.
    destruct (extract_source_code _ _); [done|]. by destruct (walk_fault E path).
  - intros [|? ?]; apply frames_ret.
Qed.

Lemma frames_analyze_and_summarize (cs : list chunk) :
  frames (analyze_and_summarize E cs).
Proof.
  unfold analyze_and_summarize.
  destruct (analyze_repository E cs);
    [apply frames_raise | apply frames_ret | apply frames_raise].
Qed.

Lemma frames_pipeline_body (name user_id github_id repo_id path : string) :
  frames (pipeline_body E name user_id github_id repo_id path).
Proof.
  unfold pipeline_body.
  apply frames_bind; [apply frames_process_repository|]. intros cs.
  apply frames_bind.
  { apply frames_try_except; [|intros ?; apply frames_ret].
    apply frames_bind; [apply frames_save_pipeline_result|].
    intros ?. apply frames_ret. }
  intros _. apply frames_bind; [|intros ?; apply frames_ret].
  apply frames_try_except; [|intros ?; apply frames_ret].
  apply frames_bind; [apply frames_analyze_and_summarize|]. intros [rs report].
  apply frames_bind; [|intros ?; apply frames_ret].
  apply frames_try_except; [|intros ?; apply frames_ret].
  apply frames_bind; [apply frames_save_vulnerability_report|].
  intros ?. apply frames_ret.
Qed.

(** ** Computations that never raise *)

Lemma returns_try_except {A} (body : M A) (handler : exn → M A) :
  (∀ e, returns (handler e)) → returns (try_except body handler).
Proof.
  intros Hh w. unfold try_except.
  destruct (body w) as [[e|a] w1]; [apply Hh | by eexists _, _].
Qed.

Lemma returns_ret {A} (a : A) : returns (mret a : M A).
Proof. intros w. by eexists _, _. Qed.


(** ** The stages of a run *)

Lemma disk_started (w : world) : is_Some (disk (started w) !! "github_repos").
Proof.
  unfold started, mkdir. cbn.
  destruct (disk w !! "github_repos") eqn:Hd; [by rewrite Hd|].
  by rewrite lookup_insert_eq.
Qed.

Lemma mkdir_present (path : string) (w : world) :
  is_Some (disk w !! path) → mkdir path w = (inr tt, w).
Proof.
  intros [t Ht]. unfold mkdir, set_disk. rewrite Ht. by destruct w.
Qed.

(** [clone_repository] never raises; it leaves the record of removals
    alone; when it reports success the directory is on the disk under the
    path it returns, and when it reports a failure the world is as it
    was, unless the failure is the timeout. *)
Lemma clone_repository_run (repo_url seg base : string)
      (token : option string) (w0 : world) :
  is_Some (disk w0 !! base) →
  ∃ cr w1,
    clone_repository E repo_url seg base token w0 = (inr cr, w1)
    ∧ removals w1 = removals w0
    ∧ (clone_success cr = true →
       clone_path cr = Some (path_join base seg)
       ∧ is_Some (disk w1 !! path_join base seg))
    ∧ (clone_success cr = false →
       clone_message cr ≠ "Clone operation timed out after 5 minutes" →
       w1 = w0).
Proof.
  intros Hbase. unfold clone_repository.
  rewrite (bind_inr _ _ _ _ _ (mkdir_present _ _ Hbase)).
  destruct (negb (startswith "http" repo_url) && negb (contains "/" repo_url)).
  { eexists _, _. split; [reflexivity|]. split_and!; done. }
  unfold mbind at 1, M_bind at 1, path_exists at 1.
  case_bool_decide as Hpresent.
  { eexists _, _. split; [reflexivity|]. split_and!; done. }
  unfold mbind, M_bind, run_git_clone.
  destruct (git E _ _) as [content|[partial|]|stderr description| |e];
    (eexists _, _; split; [reflexivity|]; split_and!; try done).
  intros _. split; [done|]. cbn. by rewrite lookup_insert_eq.
Qed.

Lemma run_pipeline_pre_existing (name user_id github_id repo_id : string)
      (token : option string) (w w1 : world) :
  pre_existing name w w1 →
  run_pipeline E name user_id github_id repo_id token w
  = guarded E name user_id github_id repo_id (repo_dir name) w1.
Proof.
  intros [Hdir ->]. unfold run_pipeline.
  unfold mbind at 1, M_bind at 1. change (mkdir "github_repos" w)
    with (inr (A:=exn) tt, started w). cbn iota.
  unfold mbind at 1, M_bind at 1, path_exists at 1.
  fold (repo_dir name). by rewrite bool_decide_true.
Qed.

Lemma run_pipeline_cloned (name user_id github_id repo_id : string)
      (token : option string) (w w1 : world) :
  freshly_cloned E name token w w1 →
  run_pipeline E name user_id github_id repo_id token w
  = guarded E name user_id github_id repo_id (repo_dir name) w1.
Proof.
  intros (Hnone & cr & Hclone & Hok). unfold run_pipeline.
  unfold mbind at 1, M_bind at 1. change (mkdir "github_repos" w)
    with (inr (A:=exn) tt, started w). cbn iota.
  unfold mbind at 1, M_bind at 1, path_exists at 1.
  fold (repo_dir name). rewrite bool_decide_false by (rewrite Hnone; by intros [? ?]).
  cbn [negb]. rewrite (bind_inr _ _ _ _ _ Hclone). rewrite Hok. cbn [negb].
  destruct (clone_repository_run name (last_segment name) "github_repos" token
              (started w) (disk_started w)) as (cr' & w1' & Hrun & _ & Hpath & _).
  rewrite Hclone in Hrun. inversion Hrun; subst cr' w1'.
  destruct (Hpath Hok) as [-> _]. done.
Qed.

Lemma run_pipeline_clone_fails (name user_id github_id repo_id : string)
      (token : option string) (w w1 : world) (msg : string) :
  clone_fails E name token w w1 msg →
  run_pipeline E name user_id github_id repo_id token w
  = (inr (failure ("Failed to clone repository: " +:+ msg)), w1)
  ∧ removals w1 = removals w
  ∧ (msg ≠ "Clone operation timed out after 5 minutes" → w1 = started w).
Proof.
  intros (Hnone & cr & Hclone & Hko & Hmsg). unfold run_pipeline.
  unfold mbind at 1, M_bind at 1. change (mkdir "github_repos" w)
    with (inr (A:=exn) tt, started w). cbn iota.
  unfold mbind at 1, M_bind at 1, path_exists at 1.
  fold (repo_dir name). rewrite bool_decide_false by (rewrite Hnone; by intros [? ?]).
  cbn [negb]. rewrite (bind_inr _ _ _ _ _ Hclone). rewrite Hko, Hmsg. cbn [negb].
  split; [done|].
  destruct (clone_repository_run name (last_segment name) "github_repos" token
              (started w) (disk_started w)) as (cr' & w1' & Hrun & Hrem & _ & Hsame).
  rewrite Hclone in Hrun. inversion Hrun; subst cr' w1'.
  split; [exact Hrem|]. intros Hother. apply Hsame; [done|]. by rewrite Hmsg.
Qed.

(** In both ways of reaching the [try] statement the directory is on the
    disk and nothing was removed yet. *)
Lemma try_entered (name : string) (token : option string) (w w1 : world) :
  pre_existing name w w1 ∨ freshly_cloned E name token w w1 →
  is_Some (disk w1 !! repo_dir name) ∧ removals w1 = removals w.
Proof.
  intros [[Hdir ->] | (Hnone & cr & Hclone & Hok)]; [done|].
  destruct (clone_repository_run name (last_segment name) "github_repos" token
              (started w) (disk_started w)) as (cr' & w1' & Hrun & Hrem & Hpath & _).
  rewrite Hclone in Hrun. inversion Hrun; subst cr' w1'.
  destruct (Hpath Hok) as [_ Hdir]. done.
Qed.

(** The [try ... except] part of the statement never raises and leaves
    the disk alone. *)
Lemma try_block_run (name user_id github_id repo_id path : string) (w1 : world) :
  ∃ res wb,
    try_except (pipeline_body E name user_id github_id repo_id path)
               (fun e => mret (failure ("Error processing repository: "
                                        +:+ exn_str e))) w1
    = (inr res, wb)
    ∧ disk wb = disk w1 ∧ removals wb = removals w1.
Proof.
  set (block := try_except _ _).
  assert (returns block) as Hret.
  { apply returns_try_except. intros e. apply returns_ret. }
  assert (frames block) as Hfr.
  { apply frames_try_except; [apply frames_pipeline_body|].
    intros e. apply frames_ret. }
  destruct (Hret w1) as (res & wb & Hrun). specialize (Hfr w1).
  rewrite Hrun in Hfr. by exists res, wb.
Qed.

(** The [finally] block on a directory that is on the disk: the removal
    is called; the directory is gone unless the removal raises, in which
    case what it could not remove is left, and the block itself never
    raises. *)
Lemma cleanup_run (path : string) (wb : world) :
  is_Some (disk wb !! path) →
  ∃ w', cleanup E path wb = (inr tt, w')
        ∧ removals w' = removals wb ++ [path]
        ∧ disk w' !! path = match rmtree_fault E path with
                            | Some _ => left_over E path <$> disk wb !! path
                            | None => None
                            end.
Proof.
  intros Hdir. unfold cleanup, mbind, M_bind, path_exists.
  rewrite bool_decide_true by done. unfold try_except, rmtree.
  destruct (rmtree_fault E path).
  - eexists. split; [reflexivity|]. split; [done|]. cbn.
    apply lookup_alter_eq.
  - eexists. split; [reflexivity|]. split; [done|]. cbn. apply lookup_delete_eq.
Qed.

(** [try: block finally: cleanup]: whatever the block did, returned or
    raised, the cleanup runs after it and the outcome of the block
    stands. *)
Lemma finally_cleans_up {A} (block : M A) (path : string) (w1 wb : world)
      (r : exn + A) :
  frames block → is_Some (disk w1 !! path) → block w1 = (r, wb) →
  ∃ w', try_finally block (cleanup E path) w1 = (r, w')
        ∧ removals w' = removals w1 ++ [path]
        ∧ disk w' !! path = match rmtree_fault E path with
                            | Some _ => left_over E path <$> disk w1 !! path
                            | None => None
                            end.
Proof.
  intros Hfr Hdir Hblock. specialize (Hfr w1). rewrite Hblock in Hfr.
  destruct Hfr as [Hdisk Hrem]. cbn in Hdisk, Hrem.
  destruct (cleanup_run path wb) as (w' & Hclean & Hrem' & Hdisk').
  { by rewrite Hdisk. }
  exists w'. unfold try_finally. rewrite Hblock, Hclean.
  split; [done|]. by rewrite Hrem', Hrem, Hdisk', Hdisk.
Qed.

(** The whole [try ... except ... finally] statement. *)
Lemma guarded_run (name user_id github_id repo_id path : string) (w1 : world) :
  is_Some (disk w1 !! path) →
  ∃ res wb w',
    try_except (pipeline_body E name user_id github_id repo_id path)
               (fun e => mret (failure ("Error processing repository: "
                                        +:+ exn_str e))) w1
    = (inr res, wb)
    ∧ guarded E name user_id github_id repo_id path w1 = (inr res, w')
    ∧ removals w' = removals w1 ++ [path]
    ∧ disk w' !! path = match rmtree_fault E path with
                        | Some _ => left_over E path <$> disk w1 !! path
                        | None => None
                        end.
Proof.
  intros Hdir.
  destruct (try_block_run name user_id github_id repo_id path w1)
    as (res & wb & Hblock & _ & _).
  pose proof (fun Hfr => finally_cleans_up _ path w1 wb (inr res) Hfr Hdir Hblock)
    as Hfinal.
  destruct Hfinal as (w' & Hrun & Hrem & Hdisk).
  { apply frames_try_except; [apply frames_pipeline_body|].
    intros e. apply frames_ret. }
  by exists res, wb, w'.
Qed.

(** The run of the [try] block when the analysis, or the aggregation of
    what it returned, raises. *)
Lemma pipeline_body_analysis_fails
      (name user_id github_id repo_id path : string) (w1 w1' : world)
      (cs : list chunk) (e : exn) :
  process_repository E path w1 = (inr cs, w1') →
  analyze_repository E cs = AnalysisRaises e
  ∨ analyze_repository E cs = AnalysisUnusable e →
  ∃ w2,
    pipeline_body E name user_id github_id repo_id path w1
    = (inr {| success := true;
              message := "Successfully processed repository: " +:+ name;
              repo_path := Some path;
              total_chunks := Some (Aggregator.llen cs);
              chunks := cs;
              vulnerability_report := None |}, w2).
Proof.
  intros Hproc Hfail. unfold pipeline_body.
  rewrite (bind_inr _ _ _ _ _ Hproc).
  destruct (returns_try_except
              (_ ← Store.save_pipeline_result E user_id github_id repo_id name
                     cs (Some path); mret tt)
              (fun _ => mret tt) (fun _ => returns_ret tt) w1')
    as ([] & w2 & Hsave).
  rewrite (bind_inr _ _ _ _ _ Hsave).
  assert (analyze_and_summarize E cs w2 = (inl e, w2)) as Han.
  { unfold analyze_and_summarize. by destruct Hfail as [-> | ->]. }
  erewrite bind_inr; [by eexists|].
  unfold try_except. by rewrite (bind_inl _ _ _ _ _ Han).
Qed.

(** What the [try] block of a run gives, by what [process_repository]
    and the analysis do: an exception of [process_repository] leaves the
    block; otherwise the block returns the success result with the chunks,
    whatever the saves and the analysis do. *)
Lemma pipeline_body_run (name user_id github_id repo_id path : string)
      (w1 : world) :
  match process_repository E path w1 with
  | (inl e, w1') =>
      pipeline_body E name user_id github_id repo_id path w1 = (inl e, w1')
  | (inr cs, _) =>
      ∃ w2,
        pipeline_body E name user_id github_id repo_id path w1
        = (inr {| success := true;
                  message := "Successfully processed repository: " +:+ name;
                  repo_path := Some path;
                  total_chunks := Some (Aggregator.llen cs);
                  chunks := cs;
                  vulnerability_report :=
                    match analyze_repository E cs with
                    | AnalysisReturns scan_results =>
                        Some (Aggregator.summarize scan_results)
                    | _ => None
                    end |}, w2)
  end.
Proof.
  destruct (process_repository E path w1) as [[e|cs] w1'] eqn:Hproc;
    unfold pipeline_body.
  { by rewrite (bind_inl _ _ _ _ _ Hproc). }
  rewrite (bind_inr _ _ _ _ _ Hproc).
  destruct (returns_try_except
              (_ ← Store.save_pipeline_result E user_id github_id repo_id name
                     cs (Some path); mret tt)
              (fun _ => mret tt) (fun _ => returns_ret tt) w1')
    as ([] & w2 & Hsave).
  rewrite (bind_inr _ _ _ _ _ Hsave).
  unfold analyze_and_summarize.
  destruct (analyze_repository E cs) as [e|scan_results|e].
  - erewrite bind_inr; [by eexists|]. unfold try_except.
    by rewrite (bind_inl _ _ w2 w2 e).
  - destruct (returns_try_except
                (_ ← Store.save_vulnerability_report E user_id github_id
                       repo_id name scan_results; mret tt)
                (fun _ => mret tt) (fun _ => returns_ret tt) w2)
      as ([] & w3 & Hreport).
    erewrite bind_inr; [by eexists|]. unfold try_except at 1.
    erewrite bind_inr; [|reflexivity]. cbn beta iota.
    by rewrite (bind_inr _ _ _ _ _ Hreport).
  - erewrite bind_inr; [by eexists|]. unfold try_except.
    by rewrite (bind_inl _ _ w2 w2 e).
Qed.

(** What the [try ... except] part yields, by what [process_repository]
    does: the failure result that carries the text of its exception, or a
    success result with its chunks. *)
Lemma try_block_result (name user_id github_id repo_id path : string)
      (w1 wb : world) (res : run_result) :
  try_except (pipeline_body E name user_id github_id repo_id path)
             (fun e => mret (failure ("Error processing repository: "
                                      +:+ exn_str e))) w1
  = (inr res, wb) →
  (∀ e w1', process_repository E path w1 = (inl e, w1') →
            res = failure ("Error processing repository: " +:+ exn_str e))
  ∧ (∀ cs w1', process_repository E path w1 = (inr cs, w1') →
               success res = true ∧ chunks res = cs).
Proof.
  unfold try_except.
  pose proof (pipeline_body_run name user_id github_id repo_id path w1) as Hbody.
  destruct (process_repository E path w1) as [[e|cs] w1''].
  - rewrite Hbody. intros [= <- _]. split; [|done].
    by intros e' w1' [= <- _].
  - destruct Hbody as (w2 & ->). intros [= <- _]. split; [done|].
    by intros cs' w1' [= <- _].
Qed.


(** The second half of C5 fails as well when the clone is killed at its
    timeout: the run returns the failure at once and calls no removal, but
    the part of the repository that the clone had written is on the disk. *)
Example partial_clone_is_left_behind :
  let run := run_pipeline Samples.clone_killed "octo/demo" "u1" "g1" "r1" None
                          Samples.blank in
  fst run = inr (failure ("Failed to clone repository: "
                          +:+ "Clone operation timed out after 5 minutes"))
  ∧ removals (snd run) = []
  ∧ disk (snd run) !! "github_repos/demo" = Some [Extractor.directory ["src"]].
Proof. split_and!; by vm_compute. Qed.


(** C6: on a run in which extraction and chunking succeed, an exception
    raised by the analysis, or by the aggregation of what it returned, does
    not fail the run: the result has [success = True], all the chunks and
    their count, and no vulnerability report. *)
Theorem analysis_failure_is_isolated
        (name user_id github_id repo_id : string) (token : option string)
        (w w1 w1' : world) (cs : list chunk) (e : exn) :
  pre_existing name w w1 ∨ freshly_cloned E name token w w1 →
  process_repository E (repo_dir name) w1 = (inr cs, w1') →
  analyze_repository E cs = AnalysisRaises e
  ∨ analyze_repository E cs = AnalysisUnusable e →
  ∃ w',
    run_pipeline E name user_id github_id repo_id token w
    = (inr {| success := true;
              message := "Successfully processed repository: " +:+ name;
              repo_path := Some (repo_dir name);
              total_chunks := Some (Aggregator.llen cs);
              chunks := cs;
              vulnerability_report := None |}, w').
Proof.
  intros Hentry Hproc Hfail.
  destruct (try_entered _ _ _ _ Hentry) as [Hdir _].
  destruct (guarded_run name user_id github_id repo_id (repo_dir name) w1 Hdir)
    as (res & wb & w' & Hblock & Hrun & _).
  destruct (pipeline_body_analysis_fails name user_id github_id repo_id
              (repo_dir name) w1 w1' cs e Hproc Hfail) as (w2 & Hbody).
  unfold try_except in Hblock. rewrite Hbody in Hblock.
  inversion Hblock; subst res wb. exists w'.
  destruct Hentry as [Hpre | Hnew].
  - by rewrite (run_pipeline_pre_existing _ _ _ _ _ _ _ Hpre).
  - by rewrite (run_pipeline_cloned _ _ _ _ _ _ _ Hnew).
Qed.

End PipelineFacts.

Section PipelineWitnesses.


(** C6 on a run whose analysis engine cannot be reached. *)
Lemma analysis_failure_is_isolated_witness :
  ∃ w',
    Pipeline.run_pipeline Samples.engine_down "octo/demo" "u1" "g1" "r1" None
                          Samples.checked_out
    = (inr {| Pipeline.success := true;
              Pipeline.message := "Successfully processed repository: octo/demo";
              Pipeline.repo_path := Some "github_repos/demo";
              Pipeline.total_chunks := Some 1;
              Pipeline.chunks := chunk_code "src/app.py" "print(1)";
              Pipeline.vulnerability_report := None |}, w').
Proof.
  apply (analysis_failure_is_isolated Samples.engine_down "octo/demo" "u1" "g1"
           "r1" None Samples.checked_out
           (Pipeline.started Samples.checked_out)
           (Pipeline.started Samples.checked_out)
           (chunk_code "src/app.py" "print(1)")
           (Exception "Connection error.")).
  - left. split; [by eexists | reflexivity].
  - by vm_compute.
  - left. reflexivity.
Defined.

End PipelineWitnesses.
